(** * gbk-to-sqlite: the batched bulk-load pipeline of [gbk_to_sqlite/core.py]

    A shallow embedding of [iter_gb_records], [convert_gbk_to_sqlite],
    [_bulk_insert_tuples] and [create_indexes], with the database and the
    sequence of observable actions (log lines, warnings, statements sent to
    the storage engine, resumptions of the record generator) as explicit
    state, followed by the properties of the loader. *)

From stdpp Require Import base list strings gmap pretty.

Open Scope string_scope.
Open Scope list_scope.

(** * The embedding *)

(** ** Python values *)

(** The scalar values that travel from the parser into row tuples. *)
Inductive pyval :=
| PyNone
| PyInt (z : Z)
| PyStr (s : string).

#[global] Instance pyval_eq_dec : EqDecision pyval.
Proof. solve_decision. Defined.

(** [str(v)], also what an f-string does with [{v}]. *)
Definition py_str (v : pyval) : string :=
  match v with
  | PyNone => "None"
  | PyInt z => pretty z
  | PyStr s => s
  end.

(** [v is not None] *)
Definition is_not_None (v : pyval) : bool :=
  match v with PyNone => false | _ => true end.

(** [s.endswith(suffix)] *)
Definition endswith (s suffix : string) : bool :=
  let n := String.length s in
  let k := String.length suffix in
  Nat.leb k n && String.eqb (String.substring (n - k) k s) suffix.

(** ** Objects handed over by the parsing library *)

Record Qualifier := { q_key : pyval; q_value : pyval }.

(** A feature location as the source probes it.  [hasattr(location, "strand")]
    separates two shapes.  A location that exposes strand: the source then
    reads its start and end directly (lines 78-79), so such a location is
    taken to expose all three; the strand may be [None].  A location without
    strand: its start and end are each probed with [hasattr] (lines 72-75),
    and [None] below is an attribute that is not there. *)
Inductive Location :=
| Stranded (start end_ strand : pyval)
| Unstranded (start end_ : option pyval).

Record Feature := { location : Location; qualifiers : list Qualifier }.

Record GbRecord := {
  name : pyval;
  definition : pyval;
  accession : pyval;
  version : pyval;
  features : list Feature
}.

(** ** Exceptions and the record generator *)

Inductive Exn :=
| IOError (msg : string)
| ParseError (msg : string)
| DatabaseError (msg : string).

(** What the generator returned by [gb_io.iter] does each time it is resumed:
    it yields the next record, stops, or raises. *)
Inductive RecordStream :=
| StopIteration
| Raise (e : Exn)
| Yield (r : GbRecord) (rest : RecordStream).

(** The two collaborators of [iter_gb_records]. *)
Record Reader := {
  TextIO : Type;
  gzip_open : string → Exn + TextIO;
  gb_io_iter_file : TextIO → RecordStream;
  gb_io_iter_path : string → RecordStream
}.

(** Lines 17-31.  The body runs when the generator is first resumed; a
    failure of [gzip.open] is raised at that point. *)
Definition iter_gb_records (rd : Reader) (gbk_path : string) : RecordStream :=
  if endswith gbk_path ".gz" then
    match gzip_open rd gbk_path with
    | inl e => Raise e
    | inr file_obj => gb_io_iter_file rd file_obj
    end
  else gb_io_iter_path rd gbk_path.

(** ** The database and the trace of actions *)

Definition tuple := list pyval.

(** A stored row: its columns with their values, in column order. *)
Definition row := list (string * pyval).

Record Index := { idx_name : string; idx_table : string; idx_columns : list string }.

#[global] Instance Index_eq_dec : EqDecision Index.
Proof. solve_decision. Defined.

Record Database := {
  tables : gmap string (list row);
  indexes : list Index
}.

(** The rows of a table, oldest first; a table never written to is empty. *)
Definition table_rows (d : Database) (t : string) : list row :=
  default [] (tables d !! t).

Definition append_rows (t : string) (rs : list row) (d : Database) : Database :=
  {| tables := <[t := table_rows d t ++ rs]> (tables d); indexes := indexes d |}.

(** The model instances the conversion keeps hold of. *)
Record GenomeObj := { genome_id : Z; genome_gbk_path : string }.

Record RecordObj := { record_id : Z; record_name : pyval }.

(** What can be observed of a run, in the order it happens: a line passed to
    [logging.info]; a warning; a single-row insert made by a model's [create],
    committed at once; a resumption of the record generator by the [for]
    statement; [cursor.executemany] with its statement and tuples;
    [conn.commit]; the start and the two ends of a [with db:] block; a
    statement passed to [db.execute_sql]. *)
Inductive Event :=
| LogInfo (msg : string)
| Warn (msg : string)
| Insert (table : string) (r : row)
| Next
| ExecuteMany (sql : string) (values : list tuple)
| Commit
| Begin
| Rollback
| ExecuteSql (sql : string).

#[global] Instance Event_eq_dec : EqDecision Event.
Proof. solve_decision. Defined.

(** The local variables of [convert_gbk_to_sqlite] that live across iterations. *)
Record Locals := {
  record_objs : list RecordObj;
  feature_tuples : list tuple;
  qualifier_tuples : list tuple
}.

(** The state a run works on: the database behind the module-level handle
    [db], and the locals of the conversion in progress. *)
Record State := { database : Database; locals : Locals }.

(** ** A state, exception and trace monad *)

Inductive Result (A : Type) :=
| Ok (a : A)
| Err (e : Exn).
Arguments Ok {A} a.
Arguments Err {A} e.

(** A computation ends normally or raises, leaves a state either way (nothing
    is rolled back on the way out), and has emitted a trace. *)
Definition M (A : Type) : Type := State → Result A * State * list Event.

Definition ret {A} (a : A) : M A := λ st, (Ok a, st, []).

Definition bind {A B} (m : M A) (k : A → M B) : M B :=
  λ st, match m st with
        | (Ok a, st1, tr1) => let '(r, st2, tr2) := k a st1 in (r, st2, tr1 ++ tr2)
        | (Err e, st1, tr1) => (Err e, st1, tr1)
        end.

Definition raise {A} (e : Exn) : M A := λ st, (Err e, st, []).

#[global] Instance M_ret : MRet M := @ret.
#[global] Instance M_bind : MBind M := λ A B k m, bind m k.

Definition emit (e : Event) : M unit := λ st, (Ok tt, st, [e]).

Definition read_db : M Database := λ st, (Ok (database st), st, []).

Definition update_db (f : Database → Database) : M unit :=
  λ st, (Ok tt, {| database := f (database st); locals := locals st |}, []).

Definition get_locals : M Locals := λ st, (Ok (locals st), st, []).

Definition set_locals (l : Locals) : M unit :=
  λ st, (Ok tt, {| database := database st; locals := l |}, []).

(** ** The storage layer *)

(** The models module ([Genome], [Record], [db]) is not part of the sources
    at hand; what [create] does is taken from the specification's account of
    the storage layer. *)

(** Modelled from the spec: the identifier of a stored row of a model table,
    its first column. *)
Definition row_id (r : row) : Z :=
  match r with
  | (_, PyInt z) :: _ => z
  | _ => 0%Z
  end.

(** Modelled from the spec: the auto-incrementing identifier assigned to the
    next row of a table, one more than the largest in use. *)
Definition next_id (rs : list row) : Z := (1 + foldr Z.max 0 (row_id <$> rs))%Z.

(** Modelled from the spec: [create] of a model class, missing with the models
    module.  A single-row insert that assigns the identifier and hands it
    back at once; the row goes in immediately, outside any batch. *)
Definition create (table : string) (fields : row) : M Z :=
  d ← read_db;
  let id := next_id (table_rows d table) in
  let r := ("id", PyInt id) :: fields in
  emit (Insert table r) ;;
  update_db (append_rows table [r]) ;;
  ret id.

(** Modelled from the spec: [Genome.create(gbk_path=...)]; a genome row has a
    generated identifier and the source file path. *)
Definition Genome_create (gbk_path : string) : M GenomeObj :=
  id ← create "genome" [("gbk_path", PyStr gbk_path)];
  ret {| genome_id := id; genome_gbk_path := gbk_path |}.

(** Modelled from the spec: [Record.create(genome=..., name=..., ...)]; a
    record row has an identifier, the owning genome's id, name, definition,
    accession and version. *)
Definition Record_create (genome : GenomeObj) (name definition accession version : pyval)
  : M RecordObj :=
  id ← create "record"
         [("genome", PyInt (genome_id genome)); ("name", name);
          ("definition", definition); ("accession", accession);
          ("version", version)];
  ret {| record_id := id; record_name := name |}.

(** [cursor.executemany(sql, values)]: one row per tuple, each tuple laid out
    along the column list, appended in order. *)
Definition executemany (sql table_name : string) (columns : list string)
    (values : list tuple) : M unit :=
  emit (ExecuteMany sql values) ;;
  update_db (append_rows table_name (zip columns <$> values)).

(** Lines 135-136: the text of the insert statement. *)
Definition insert_sql (table_name : string) (columns : list string) : string :=
  let placeholders := String.concat ", " (replicate (length columns) "?") in
  "INSERT INTO " +:+ table_name +:+ " (" +:+ String.concat ", " columns
  +:+ ") VALUES (" +:+ placeholders +:+ ")".

(** Lines 123-140. *)
Definition _bulk_insert_tuples (values : list tuple) (table_name : string)
    (columns : list string) : M unit :=
  match values with
  | [] => ret tt
  | _ =>
    let sql := insert_sql table_name columns in
    executemany sql table_name columns values ;;
    emit Commit
  end.

(** ** The conversion *)

Definition feature_columns : list string :=
  ["genome_id"; "record_id"; "feature_index"; "location_start"; "location_end";
   "location_strand"].

Definition qualifier_columns : list string :=
  ["genome_id"; "record_id"; "feature_index"; "key"; "value"].

#[global] Arguments feature_columns : simpl never.
#[global] Arguments qualifier_columns : simpl never.

Definition set_record_objs (v : list RecordObj) (l : Locals) : Locals :=
  {| record_objs := v; feature_tuples := feature_tuples l;
     qualifier_tuples := qualifier_tuples l |}.

Definition set_feature_tuples (v : list tuple) (l : Locals) : Locals :=
  {| record_objs := record_objs l; feature_tuples := v;
     qualifier_tuples := qualifier_tuples l |}.

Definition set_qualifier_tuples (v : list tuple) (l : Locals) : Locals :=
  {| record_objs := record_objs l; feature_tuples := feature_tuples l;
     qualifier_tuples := v |}.

(** Lines 68-82: start, end and strand of the row for feature [idx]. *)
Definition location_fields (idx : nat) (record_obj : RecordObj) (loc : Location)
  : M (pyval * pyval * pyval) :=
  match loc with
  | Unstranded start end_ =>
    emit (Warn ("Feature " +:+ pretty idx +:+ " of record "
                +:+ py_str (record_name record_obj)
                +:+ " does not have strand attribute")) ;;
    let location_start := default PyNone start in
    let location_end := default PyNone end_ in
    let location_strand := PyNone in
    ret (location_start, location_end, location_strand)
  | Stranded start end_ strand =>
    let location_start := start in
    let location_end := end_ in
    let location_strand :=
      if is_not_None strand then PyStr (py_str strand) else PyNone in
    ret (location_start, location_end, location_strand)
  end.

(** Lines 84-98: append to the feature buffer, then the length check. *)
Definition append_feature (batch_size : Z) (t : tuple) : M unit :=
  l ← get_locals;
  let l1 := set_feature_tuples (feature_tuples l ++ [t]) l in
  set_locals l1 ;;
  if bool_decide (batch_size ≤ Z.of_nat (length (feature_tuples l1)))%Z then
    _bulk_insert_tuples (feature_tuples l1) "feature" feature_columns ;;
    set_locals (set_feature_tuples [] l1)
  else ret tt.

(** Lines 100-113: the same for the qualifier buffer. *)
Definition append_qualifier (batch_size : Z) (t : tuple) : M unit :=
  l ← get_locals;
  let l1 := set_qualifier_tuples (qualifier_tuples l ++ [t]) l in
  set_locals l1 ;;
  if bool_decide (batch_size ≤ Z.of_nat (length (qualifier_tuples l1)))%Z then
    _bulk_insert_tuples (qualifier_tuples l1) "qualifier" qualifier_columns ;;
    set_locals (set_qualifier_tuples [] l1)
  else ret tt.

Definition feature_tuple (genome : GenomeObj) (record_obj : RecordObj) (idx : nat)
    (location_start location_end location_strand : pyval) : tuple :=
  [PyInt (genome_id genome); PyInt (record_id record_obj); PyInt (Z.of_nat idx);
   location_start; location_end; location_strand].

Definition qualifier_tuple (genome : GenomeObj) (record_obj : RecordObj) (idx : nat)
    (q : Qualifier) : tuple :=
  [PyInt (genome_id genome); PyInt (record_id record_obj); PyInt (Z.of_nat idx);
   q_key q; q_value q].

(** Lines 99-113: [for q in feature.qualifiers]. *)
Fixpoint for_qualifiers (batch_size : Z) (genome : GenomeObj) (record_obj : RecordObj)
    (idx : nat) (qs : list Qualifier) : M unit :=
  match qs with
  | [] => ret tt
  | q :: qs' =>
    append_qualifier batch_size (qualifier_tuple genome record_obj idx q) ;;
    for_qualifiers batch_size genome record_obj idx qs'
  end.

(** Lines 66-113: [for idx, feature in enumerate(record.features)], entered
    with [idx] the index of the head of [fs]. *)
Fixpoint for_features (batch_size : Z) (genome : GenomeObj) (record_obj : RecordObj)
    (idx : nat) (fs : list Feature) : M unit :=
  match fs with
  | [] => ret tt
  | feature :: fs' =>
    '(location_start, location_end, location_strand) ←
      location_fields idx record_obj (location feature);
    append_feature batch_size
      (feature_tuple genome record_obj idx location_start location_end location_strand) ;;
    for_qualifiers batch_size genome record_obj idx (qualifiers feature) ;;
    for_features batch_size genome record_obj (S idx) fs'
  end.

(** Lines 57-113: [for record in iter_gb_records(gbk_path)].  Each turn of the
    loop first resumes the generator ([Next]); opening the file, reading and
    parsing all happen inside those resumptions. *)
Fixpoint for_records (batch_size : Z) (genome : GenomeObj) (s : RecordStream) : M unit :=
  match s with
  | StopIteration => emit Next ;; ret tt
  | Raise e => emit Next ;; raise e
  | Yield record rest =>
    emit Next ;;
    record_obj ← Record_create genome (name record) (definition record)
                   (accession record) (version record);
    l ← get_locals;
    set_locals (set_record_objs (record_objs l ++ [record_obj]) l) ;;
    for_features batch_size genome record_obj 0 (features record) ;;
    for_records batch_size genome rest
  end.

(** Lines 115-120: what is left in the buffers after the loop. *)
Definition insert_remaining : M unit :=
  l ← get_locals;
  (match feature_tuples l with
   | [] => ret tt
   | _ => _bulk_insert_tuples (feature_tuples l) "feature" feature_columns
   end) ;;
  (match qualifier_tuples l with
   | [] => ret tt
   | _ => _bulk_insert_tuples (qualifier_tuples l) "qualifier" qualifier_columns
   end).

(** Lines 34-120. *)
Definition convert_gbk_to_sqlite (rd : Reader) (gbk_path : string) (batch_size : Z)
  : M unit :=
  emit (LogInfo ("Converting " +:+ gbk_path +:+ " to SQLite database using batch size "
                 +:+ pretty batch_size)) ;;
  genome ← Genome_create gbk_path;
  set_locals {| record_objs := []; feature_tuples := []; qualifier_tuples := [] |} ;;
  for_records batch_size genome (iter_gb_records rd gbk_path) ;;
  insert_remaining.

(** ** Index creation *)

(** The statements [create_indexes] sends through [db.execute_sql]. *)
Inductive Statement :=
| CreateIndex (if_not_exists : bool) (index table : string) (columns : list string).

Definition sql_text (s : Statement) : string :=
  match s with
  | CreateIndex if_not_exists index table columns =>
    "CREATE INDEX " +:+ (if if_not_exists then "IF NOT EXISTS " else "")
    +:+ index +:+ " ON " +:+ table +:+ " (" +:+ String.concat ", " columns +:+ ");"
  end.

Definition index_names (d : Database) : list string := idx_name <$> indexes d.

Definition add_index (i : Index) (d : Database) : Database :=
  {| tables := tables d; indexes := indexes d ++ [i] |}.

(** Modelled from the spec: the columns of the four tables.  The models
    module that declares them is not part of the sources at hand.  They are
    the attributes the specification's data model gives each entity, under
    the names [core.py] itself uses for them: for features and qualifiers the
    column lists of the two insert statements (lines 47-55), for genomes and
    records the generated [id] followed by the fields passed to [create]
    (lines 43 and 58-64).  A qualifier has no column for a feature and a
    feature none for a record besides these: the triple of genome id, record
    id and feature index is the only link. *)
Definition table_columns (table : string) : option (list string) :=
  if decide (table = "genome") then Some ["id"; "gbk_path"]
  else if decide (table = "record") then
    Some ["id"; "genome"; "name"; "definition"; "accession"; "version"]
  else if decide (table = "feature") then Some feature_columns
  else if decide (table = "qualifier") then Some qualifier_columns
  else None.

(** [db.execute_sql(sql)] for an index definition, in the order the storage
    engine checks it: the table must exist; a name already taken is an error
    unless the statement says [IF NOT EXISTS], in which case nothing happens;
    every indexed column must be a column of the table, the first that is
    not being reported; only then is the index added. *)
Definition execute_sql (s : Statement) : M unit :=
  emit (ExecuteSql (sql_text s)) ;;
  d ← read_db;
  match s with
  | CreateIndex if_not_exists index table columns =>
    match table_columns table with
    | None => raise (DatabaseError ("no such table: main." +:+ table))
    | Some known =>
      if bool_decide (index ∈ index_names d) then
        if if_not_exists then ret tt
        else raise (DatabaseError ("index " +:+ index +:+ " already exists"))
      else
        match filter (λ c, c ∉ known) columns with
        | c :: _ => raise (DatabaseError ("no such column: " +:+ c))
        | [] => update_db (add_index {| idx_name := index; idx_table := table;
                                        idx_columns := columns |})
        end
    end
  end.

(** [with db:] runs its body in a transaction: committed when the body ends
    normally, rolled back before the exception goes on when it raises. *)
Definition with_db {A} (body : M A) : M A :=
  λ st, match body st with
        | (Ok a, st1, tr) => (Ok a, st1, Begin :: tr ++ [Commit])
        | (Err e, st1, tr) =>
          (Err e, {| database := database st; locals := locals st1 |},
           Begin :: tr ++ [Rollback])
        end.

(** Lines 143-151. *)
Definition create_indexes : M unit :=
  with_db (
    execute_sql (CreateIndex true "idx_qualifier_feature" "qualifier" ["feature"]) ;;
    execute_sql (CreateIndex true "idx_qualifier_feature_key" "qualifier" ["feature"; "key"]) ;;
    execute_sql (CreateIndex true "idx_feature_record" "feature" ["record"]) ;;
    execute_sql (CreateIndex true "idx_record_genome" "record" ["genome"])).

(** * Notions used in the statements *)

(** ** Stored and buffered rows *)

(** The rows held back in the buffers, as they will sit in their table. *)
Definition pending (l : Locals) (t : string) : list row :=
  if decide (t = "feature") then zip feature_columns <$> feature_tuples l
  else if decide (t = "qualifier") then zip qualifier_columns <$> qualifier_tuples l
  else [].

(** Every row handed to the loader so far: stored, or still buffered. *)
Definition contents (st : State) (t : string) : list row :=
  table_rows (database st) t ++ pending (locals st) t.

(** [only t rs] adds the rows [rs] to table [t] and nothing elsewhere. *)
Definition only (t : string) (rs : list row) : string → list row :=
  λ t', if decide (t' = t) then rs else [].

(** From [st] to [st'] the loader was handed the rows [delta], table by
    table, and lost or changed none it had. *)
Definition grows (st st' : State) (delta : string → list row) : Prop :=
  ∀ t, contents st' t = contents st t ++ delta t.

(** How a generator ends: [None] for a normal stop. *)
Fixpoint stream_end (s : RecordStream) : option Exn :=
  match s with
  | StopIteration => None
  | Raise e => Some e
  | Yield _ rest => stream_end rest
  end.

(** The records a generator yields before it ends. *)
Fixpoint stream_records (s : RecordStream) : list GbRecord :=
  match s with
  | Yield r rest => r :: stream_records rest
  | _ => []
  end.

(** How a loop over the generator ends when nothing else goes wrong. *)
Definition stream_result (s : RecordStream) : Result unit :=
  match stream_end s with
  | None => Ok tt
  | Some e => Err e
  end.

(** The warnings of a trace, in order. *)
Definition warnings (tr : list Event) : list string :=
  omap (λ e, match e with Warn m => Some m | _ => None end) tr.

(** The batches sent to the storage engine, as (statement, tuples). *)
Definition batches (tr : list Event) : list (string * list tuple) :=
  omap (λ e, match e with ExecuteMany sql vs => Some (sql, vs) | _ => None end) tr.

(** Weakest precondition of a computation from a given state. *)
Definition wp {A} (m : M A) (st : State)
    (Q : Result A → State → list Event → Prop) : Prop :=
  let '(r, st', tr) := m st in Q r st' tr.

(** ** What the flattening hands to the loader *)

Definition location_start_of (loc : Location) : pyval :=
  match loc with
  | Stranded start _ _ => start
  | Unstranded start _ => default PyNone start
  end.

Definition location_end_of (loc : Location) : pyval :=
  match loc with
  | Stranded _ end_ _ => end_
  | Unstranded _ end_ => default PyNone end_
  end.

Definition location_strand_of (loc : Location) : pyval :=
  match loc with
  | Stranded _ _ PyNone => PyNone
  | Stranded _ _ strand => PyStr (py_str strand)
  | Unstranded _ _ => PyNone
  end.

Definition strand_warning (idx : nat) (record_obj : RecordObj) : string :=
  "Feature " +:+ pretty idx +:+ " of record " +:+ py_str (record_name record_obj)
  +:+ " does not have strand attribute".

Definition strand_warnings_of (idx : nat) (record_obj : RecordObj) (loc : Location)
  : list string :=
  match loc with
  | Stranded _ _ _ => []
  | Unstranded _ _ => [strand_warning idx record_obj]
  end.

Definition feature_row (genome : GenomeObj) (record_obj : RecordObj) (idx : nat)
    (f : Feature) : row :=
  [("genome_id", PyInt (genome_id genome)); ("record_id", PyInt (record_id record_obj));
   ("feature_index", PyInt (Z.of_nat idx));
   ("location_start", location_start_of (location f));
   ("location_end", location_end_of (location f));
   ("location_strand", location_strand_of (location f))].

Definition qualifier_row (genome : GenomeObj) (record_obj : RecordObj) (idx : nat)
    (q : Qualifier) : row :=
  [("genome_id", PyInt (genome_id genome)); ("record_id", PyInt (record_id record_obj));
   ("feature_index", PyInt (Z.of_nat idx)); ("key", q_key q); ("value", q_value q)].

Fixpoint feature_rows (genome : GenomeObj) (record_obj : RecordObj) (idx : nat)
    (fs : list Feature) : list row :=
  match fs with
  | [] => []
  | f :: fs' => feature_row genome record_obj idx f
                :: feature_rows genome record_obj (S idx) fs'
  end.

Fixpoint qualifier_rows (genome : GenomeObj) (record_obj : RecordObj) (idx : nat)
    (fs : list Feature) : list row :=
  match fs with
  | [] => []
  | f :: fs' => (qualifier_row genome record_obj idx <$> qualifiers f)
                ++ qualifier_rows genome record_obj (S idx) fs'
  end.

Fixpoint strand_warnings (record_obj : RecordObj) (idx : nat) (fs : list Feature)
  : list string :=
  match fs with
  | [] => []
  | f :: fs' => strand_warnings_of idx record_obj (location f)
                ++ strand_warnings record_obj (S idx) fs'
  end.

Definition flattened (genome : GenomeObj) (record_obj : RecordObj) (idx : nat)
    (fs : list Feature) : string → list row :=
  λ t, only "feature" (feature_rows genome record_obj idx fs) t
       ++ only "qualifier" (qualifier_rows genome record_obj idx fs) t.

Definition record_row (genome : GenomeObj) (id : Z) (r : GbRecord) : row :=
  [("id", PyInt id); ("genome", PyInt (genome_id genome)); ("name", name r);
   ("definition", definition r); ("accession", accession r); ("version", version r)].

Definition record_obj_of (id : Z) (r : GbRecord) : RecordObj :=
  {| record_id := id; record_name := name r |}.

(** The record objects made for the records [rs], the first with id [id]. *)
Fixpoint record_objs_of (id : Z) (rs : list GbRecord) : list RecordObj :=
  match rs with
  | [] => []
  | r :: rs' => record_obj_of id r :: record_objs_of (id + 1) rs'
  end.

(** All rows the records [rs] give rise to, table by table. *)
Fixpoint loaded (genome : GenomeObj) (id : Z) (rs : list GbRecord) : string → list row :=
  match rs with
  | [] => λ _, []
  | r :: rs' => λ t,
    (only "record" [record_row genome id r] t
     ++ flattened genome (record_obj_of id r) 0 (features r) t)
    ++ loaded genome (id + 1) rs' t
  end.

Fixpoint all_strand_warnings (id : Z) (rs : list GbRecord) : list string :=
  match rs with
  | [] => []
  | r :: rs' => strand_warnings (record_obj_of id r) 0 (features r)
                ++ all_strand_warnings (id + 1) rs'
  end.

Implicit Types (st : State) (tr : list Event) (genome : GenomeObj)
  (record_obj : RecordObj) (batch_size : Z) (idx : nat).

(** Reduce projections of freshly built states, and nothing else. *)
Ltac proj :=
  cbn [database locals record_objs feature_tuples qualifier_tuples tables indexes
       set_feature_tuples set_qualifier_tuples set_record_objs fst snd] in *.

Ltac list_norm :=
  rewrite ?fmap_app, ?fmap_nil, ?app_nil_r; repeat rewrite <- app_assoc;
  rewrite ?app_nil_r; try done.

(** A step that ends normally, hands the rows [delta] to the loader, emits
    the warnings [ws] and leaves the rest alone. *)
Definition hands_over st (delta : string → list row) (ws : list string)
  : Result unit → State → list Event → Prop :=
  λ r st' tr,
    r = Ok tt ∧ grows st st' delta ∧
    record_objs (locals st') = record_objs (locals st) ∧
    indexes (database st') = indexes (database st) ∧ warnings tr = ws.

(** ** Specifications of the loops *)

(** The loop over the records: it ends as the generator does, has handed
    over the rows of the records yielded, kept their record objects, and
    begins by resuming the generator. *)
Definition loop_post genome st (s : RecordStream)
  : Result unit → State → list Event → Prop :=
  λ r st' tr,
    let base := next_id (table_rows (database st) "record") in
    r = stream_result s ∧
    grows st st' (loaded genome base (stream_records s)) ∧
    record_objs (locals st') =
      record_objs (locals st) ++ record_objs_of base (stream_records s) ∧
    indexes (database st') = indexes (database st) ∧
    warnings tr = all_strand_warnings base (stream_records s) ∧
    head tr = Some Next.

(** ** The end of the input *)

Definition flush_db (table_name : string) (columns : list string) (buffer : list tuple)
    (d : Database) : Database :=
  match buffer with
  | [] => d
  | _ => append_rows table_name (zip columns <$> buffer) d
  end.

Definition flush_events (table_name : string) (columns : list string)
    (buffer : list tuple) : list Event :=
  match buffer with
  | [] => []
  | _ => [ExecuteMany (insert_sql table_name columns) buffer; Commit]
  end.

Definition genome_row (id : Z) (gbk_path : string) : row :=
  [("id", PyInt id); ("gbk_path", PyStr gbk_path)].

Definition log_line (gbk_path : string) (batch_size : Z) : string :=
  "Converting " +:+ gbk_path +:+ " to SQLite database using batch size "
  +:+ pretty batch_size.

(** The conversion as a whole: how it ends, what it has put where, and how
    its trace begins. *)
Definition convert_post (rd : Reader) (gbk_path : string) batch_size st
  : Result unit → State → list Event → Prop :=
  λ r st' tr,
    let s := iter_gb_records rd gbk_path in
    let gid := next_id (table_rows (database st) "genome") in
    let genome := {| genome_id := gid; genome_gbk_path := gbk_path |} in
    let base := next_id (table_rows (database st) "record") in
    let new := λ t, only "genome" [genome_row gid gbk_path] t
                    ++ loaded genome base (stream_records s) t in
    r = stream_result s ∧
    (∀ t, match r with
          | Ok _ => table_rows (database st') t
          | Err _ => contents st' t
          end = table_rows (database st) t ++ new t) ∧
    record_objs (locals st') = record_objs_of base (stream_records s) ∧
    indexes (database st') = indexes (database st) ∧
    warnings tr = all_strand_warnings base (stream_records s) ∧
    ∃ tr', tr = LogInfo (log_line gbk_path batch_size)
                :: Insert "genome" (genome_row gid gbk_path) :: Next :: tr'.

(** ** Reading off a run *)

Definition outcome {A} (x : Result A * State * list Event) : Result A := x.1.1.
Definition final {A} (x : Result A * State * list Event) : State := x.1.2.
Definition trace {A} (x : Result A * State * list Event) : list Event := x.2.

(** ** A sample input *)

Definition gene : Qualifier := {| q_key := PyStr "gene"; q_value := PyStr "dnaA" |}.
Definition product : Qualifier := {| q_key := PyStr "product"; q_value := PyNone |}.

Definition record_A : GbRecord :=
  {| name := PyStr "A"; definition := PyStr "first"; accession := PyStr "A00001";
     version := PyStr "A00001.1";
     features :=
       [ {| location := Stranded (PyInt 0) (PyInt 90) (PyStr "+");
            qualifiers := [gene; product] |};
         {| location := Unstranded None (Some (PyInt 300)); qualifiers := [] |};
         {| location := Stranded (PyInt 400) (PyInt 500) PyNone; qualifiers := [] |} ] |}.

Definition record_B : GbRecord :=
  {| name := PyStr "B"; definition := PyNone; accession := PyStr "B00001";
     version := PyStr "B00001.1"; features := [] |}.

(** A reader with one plain file of two records, a compressed file that
    cannot be opened, and a file whose second record is malformed. *)
Definition sample_reader : Reader :=
  {| TextIO := unit;
     gzip_open := λ p, inl (IOError ("cannot open " +:+ p));
     gb_io_iter_file := λ _, StopIteration;
     gb_io_iter_path := λ p,
       if String.eqb p "broken.gbk" then Yield record_A (Raise (ParseError "bad record"))
       else Yield record_A (Yield record_B StopIteration) |}.

Definition no_locals : Locals :=
  {| record_objs := []; feature_tuples := []; qualifier_tuples := [] |}.

Definition empty_state : State :=
  {| database := {| tables := ∅; indexes := [] |}; locals := no_locals |}.

(** ** Columns of a row *)

(** The value a row has in a column. *)
Fixpoint column (c : string) (r : row) : option pyval :=
  match r with
  | [] => None
  | (c', v) :: r' => if decide (c' = c) then Some v else column c r'
  end.

(** The row belongs to the record with identifier [id]. *)
Definition of_record (id : Z) (r : row) : Prop := column "record_id" r = Some (PyInt id).

#[global] Instance of_record_dec id r : Decision (of_record id r).
Proof. unfold of_record. apply _. Defined.

(** ** Bounds on the buffers and on the batches *)

(** Both buffers hold strictly fewer than [batch_size] tuples. *)
Definition below (batch_size : Z) (l : Locals) : Prop :=
  (Z.of_nat (length (feature_tuples l)) < batch_size)%Z ∧
  (Z.of_nat (length (qualifier_tuples l)) < batch_size)%Z.

(** Every batch in the trace has between 1 and [batch_size] tuples. *)
Definition bounded (batch_size : Z) (tr : list Event) : Prop :=
  Forall (λ b, (1 ≤ Z.of_nat (length b.2) ≤ batch_size)%Z) (batches tr).

(** A computation that, entered with both buffers below the batch size,
    leaves them so and sends only batches within bounds. *)
Definition preserves {A} (batch_size : Z) (m : M A) : Prop :=
  ∀ st, below batch_size (locals st) →
    wp m st (λ _ st' tr, below batch_size (locals st') ∧ bounded batch_size tr).

(** ** The index catalogue *)

(** The four indexes of lines 146-151. *)
Definition the_indexes : list Index :=
  [ {| idx_name := "idx_qualifier_feature"; idx_table := "qualifier";
       idx_columns := ["feature"] |};
    {| idx_name := "idx_qualifier_feature_key"; idx_table := "qualifier";
       idx_columns := ["feature"; "key"] |};
    {| idx_name := "idx_feature_record"; idx_table := "feature";
       idx_columns := ["record"] |};
    {| idx_name := "idx_record_genome"; idx_table := "record";
       idx_columns := ["genome"] |} ].

Definition create_statement (if_not_exists : bool) (i : Index) : Statement :=
  CreateIndex if_not_exists (idx_name i) (idx_table i) (idx_columns i).

(** ** Batches of the feature stream *)

(** A batch sent to the feature table. *)
Definition feature_batch (vs : list tuple) : Event :=
  ExecuteMany (insert_sql "feature" feature_columns) vs.

(** ** Invariants of the loops *)

(** A computation all of whose runs relate the state before, the state after
    and the trace emitted by [R], however they end. *)
Definition respects {A} (R : State → State → list Event → Prop) (m : M A) : Prop :=
  ∀ st, wp m st (λ _ st' tr, R st st' tr).

(** Both buffers are empty. *)
Definition flushed (l : Locals) : Prop := feature_tuples l = [] ∧ qualifier_tuples l = [].

(** Entered with empty buffers, a computation leaves them empty and has sent
    one batch for each row it added to the feature and qualifier tables. *)
Definition flushes_each (st st' : State) (tr : list Event) : Prop :=
  flushed (locals st) →
  flushed (locals st') ∧
  length (table_rows (database st') "feature")
  + length (table_rows (database st') "qualifier")
  = length (table_rows (database st) "feature")
    + length (table_rows (database st) "qualifier") + length (batches tr).

(** ** The shape of a conversion *)

(** The state in which the loop over the records is entered: the genome row
    stored, the three locals fresh. *)
Definition loop_entry (gbk_path : string) (st : State) : State :=
  {| database :=
       append_rows "genome"
         [genome_row (next_id (table_rows (database st) "genome")) gbk_path]
         (database st);
     locals := no_locals |}.

(** The genome object of a conversion started in [st]. *)
Definition genome_of (gbk_path : string) (st : State) : GenomeObj :=
  {| genome_id := next_id (table_rows (database st) "genome");
     genome_gbk_path := gbk_path |}.

(** * Further notions *)

(** ** What is stored stays *)

(** The tables the conversion writes to. *)
Definition loaded_tables : list string := ["genome"; "record"; "feature"; "qualifier"].

(** Nothing stored is lost or changed: every table keeps its rows as a
    prefix, and the index catalogue is as it was. *)
Definition keeps_rows (st st' : State) : Prop :=
  (∀ t, table_rows (database st) t `prefix_of` table_rows (database st') t) ∧
  indexes (database st') = indexes (database st).

(** Every batch of the trace holds exactly [batch_size] tuples. *)
Definition full_batches (batch_size : Z) (tr : list Event) : Prop :=
  Forall (λ b, Z.of_nat (length b.2) = batch_size) (batches tr).

(** A batch for one of the two streams whose tuples have one value per column. *)
Definition well_formed_batch (b : string * list tuple) : Prop :=
  (b.1 = insert_sql "feature" feature_columns ∧
   Forall (λ v, length v = length feature_columns) b.2) ∨
  (b.1 = insert_sql "qualifier" qualifier_columns ∧
   Forall (λ v, length v = length qualifier_columns) b.2).

(** Buffers whose tuples have one value per column of their table. *)
Definition well_formed_buffers (l : Locals) : Prop :=
  Forall (λ v, length v = length feature_columns) (feature_tuples l) ∧
  Forall (λ v, length v = length qualifier_columns) (qualifier_tuples l).

(** ** Rows of one feature *)

(** The row belongs to feature [idx] of the record with identifier [id]. *)
Definition of_feature (id : Z) (idx : nat) (r : row) : Prop :=
  of_record id r ∧ column "feature_index" r = Some (PyInt (Z.of_nat idx)).

#[global] Instance of_feature_dec id idx r : Decision (of_feature id idx r).
Proof. unfold of_feature. apply _. Defined.

(** The feature's location has no strand attribute. *)
Definition lacks_strand (f : Feature) : Prop :=
  match location f with
  | Unstranded _ _ => True
  | Stranded _ _ _ => False
  end.

#[global] Instance lacks_strand_dec f : Decision (lacks_strand f).
Proof. unfold lacks_strand. destruct (location f); apply _. Defined.

(** The row refers to a stored record of a stored genome: a record row has
    its record id and genome id, and a genome row has its genome id. *)
Definition refers_to_parents (d : Database) (r : row) : Prop :=
  (∃ rr, rr ∈ table_rows d "record" ∧
         is_Some (column "record_id" r) ∧
         column "id" rr = column "record_id" r ∧
         column "genome" rr = column "genome_id" r) ∧
  (∃ gr, gr ∈ table_rows d "genome" ∧
         is_Some (column "genome_id" r) ∧
         column "id" gr = column "genome_id" r).

(** Two rows name the same feature: same genome, record and feature index. *)
Definition same_feature (q f : row) : Prop :=
  is_Some (column "feature_index" q) ∧
  column "genome_id" q = column "genome_id" f ∧
  column "record_id" q = column "record_id" f ∧
  column "feature_index" q = column "feature_index" f.

(** ** Batches and their commits *)

(** Every [executemany] of the trace is directly followed by a commit. *)
Definition committed_at_once (tr : list Event) : Prop :=
  ∀ i sql vs, tr !! i = Some (ExecuteMany sql vs) → tr !! S i = Some Commit.

(** * Properties *)

(** ** Running the monad *)

Lemma wp_bind {A B} (m : M A) (k : A → M B) st Q :
  wp m st (λ r st1 tr1,
    match r with
    | Ok a => wp (k a) st1 (λ r2 st2 tr2, Q r2 st2 (tr1 ++ tr2))
    | Err e => Q (Err e) st1 tr1
    end) →
  wp (m ≫= k) st Q.
Proof.
  unfold wp, mbind, M_bind, bind.
  destruct (m st) as [[[a|e] st1] tr1]; [|done].
  by destruct (k a st1) as [[r2 st2] tr2].
Qed.

Lemma wp_mono {A} (m : M A) st (Q Q' : Result A → State → list Event → Prop) :
  wp m st Q → (∀ r st' tr, Q r st' tr → Q' r st' tr) → wp m st Q'.
Proof. unfold wp. destruct (m st) as [[r st'] tr]. auto. Qed.

Lemma wp_run {A} (m : M A) st r st' tr Q :
  m st = (r, st', tr) → Q r st' tr → wp m st Q.
Proof. unfold wp. by intros ->. Qed.

Lemma wp_eq {A} (m : M A) st x Q :
  m st = x → (let '(r, st', tr) := x in Q r st' tr) → wp m st Q.
Proof. unfold wp. by intros ->. Qed.

Lemma wp_run_of {A} (m : M A) st Q :
  wp m st Q ↔ Q (outcome (m st)) (final (m st)) (trace (m st)).
Proof. unfold wp, outcome, final, trace. by destruct (m st) as [[r st'] tr]. Qed.

Lemma wp_any {A} (m : M A) st (Q : Result A → State → list Event → Prop) :
  (∀ r st' tr, Q r st' tr) → wp m st Q.
Proof. intros H. unfold wp. by destruct (m st) as [[r st'] tr]. Qed.

Lemma bind_ext {A B} (m m' : M A) (k k' : A → M B) st :
  m st = m' st → (∀ a st1, k a st1 = k' a st1) → (m ≫= k) st = (m' ≫= k') st.
Proof.
  intros Hm Hk. unfold mbind, M_bind, bind. rewrite Hm.
  destruct (m' st) as [[[a|e] st1] tr1]; [|done]. by rewrite Hk.
Qed.

Lemma emit_seq_run {A} (e : Event) (k : M A) st :
  (emit e ;; k) st = let '(r, st', tr) := k st in (r, st', e :: tr).
Proof.
  unfold mbind, M_bind, bind, emit. by destruct (k st) as [[r st'] tr].
Qed.

(** ** Tables *)

Lemma table_rows_append_rows t rs d t' :
  table_rows (append_rows t rs d) t' = table_rows d t' ++ only t rs t'.
Proof.
  unfold table_rows at 1, append_rows, only. simpl.
  destruct (decide (t' = t)) as [->|Hne].
  - by rewrite lookup_insert_eq.
  - rewrite lookup_insert_ne by done. by rewrite app_nil_r.
Qed.

Lemma grows_refl st : grows st st (λ _, []).
Proof. intros t. by rewrite app_nil_r. Qed.

Lemma grows_trans st1 st2 st3 d1 d2 :
  grows st1 st2 d1 → grows st2 st3 d2 → grows st1 st3 (λ t, d1 t ++ d2 t).
Proof. intros H1 H2 t. by rewrite H2, H1, app_assoc. Qed.

Lemma grows_ext st st' d d' : grows st st' d → (∀ t, d t = d' t) → grows st st' d'.
Proof. intros H E t. by rewrite <- E. Qed.

(** ** The steps of the loader *)

Lemma bulk_insert_nil table_name columns st :
  _bulk_insert_tuples [] table_name columns st = (Ok tt, st, []).
Proof. done. Qed.

Lemma bulk_insert_cons v values table_name columns st :
  _bulk_insert_tuples (v :: values) table_name columns st =
  (Ok tt,
   {| database := append_rows table_name (zip columns <$> v :: values) (database st);
      locals := locals st |},
   [ExecuteMany (insert_sql table_name columns) (v :: values); Commit]).
Proof. done. Qed.

Lemma bulk_insert_snoc values v table_name columns st :
  _bulk_insert_tuples (values ++ [v]) table_name columns st =
  (Ok tt,
   {| database := append_rows table_name (zip columns <$> values ++ [v]) (database st);
      locals := locals st |},
   [ExecuteMany (insert_sql table_name columns) (values ++ [v]); Commit]).
Proof. destruct values; apply bulk_insert_cons. Qed.

Lemma append_feature_run batch_size t st :
  append_feature batch_size t st =
  let buffer := feature_tuples (locals st) ++ [t] in
  if bool_decide (batch_size ≤ Z.of_nat (length buffer))%Z then
    (Ok tt,
     {| database := append_rows "feature" (zip feature_columns <$> buffer) (database st);
        locals := set_feature_tuples [] (locals st) |},
     [ExecuteMany (insert_sql "feature" feature_columns) buffer; Commit])
  else
    (Ok tt, {| database := database st; locals := set_feature_tuples buffer (locals st) |}, []).
Proof.
  unfold append_feature, mbind, M_bind, bind, get_locals, set_locals. simpl.
  case_bool_decide; [|done].
  by rewrite bulk_insert_snoc.
Qed.

Lemma append_qualifier_run batch_size t st :
  append_qualifier batch_size t st =
  let buffer := qualifier_tuples (locals st) ++ [t] in
  if bool_decide (batch_size ≤ Z.of_nat (length buffer))%Z then
    (Ok tt,
     {| database := append_rows "qualifier" (zip qualifier_columns <$> buffer) (database st);
        locals := set_qualifier_tuples [] (locals st) |},
     [ExecuteMany (insert_sql "qualifier" qualifier_columns) buffer; Commit])
  else
    (Ok tt, {| database := database st; locals := set_qualifier_tuples buffer (locals st) |}, []).
Proof.
  unfold append_qualifier, mbind, M_bind, bind, get_locals, set_locals. simpl.
  case_bool_decide; [|done].
  by rewrite bulk_insert_snoc.
Qed.

Lemma location_fields_run idx record_obj loc st :
  location_fields idx record_obj loc st =
  (Ok (location_start_of loc, location_end_of loc, location_strand_of loc), st,
   Warn <$> strand_warnings_of idx record_obj loc).
Proof. destruct loc as [s e [| |]|s e]; reflexivity. Qed.

Lemma warnings_app tr1 tr2 : warnings (tr1 ++ tr2) = warnings tr1 ++ warnings tr2.
Proof. apply omap_app. Qed.

Lemma warnings_Warn ms : warnings (Warn <$> ms) = ms.
Proof. unfold warnings. induction ms as [|m ms IH]; [done|]. simpl. f_equal. exact IH. Qed.

Lemma pending_set_feature v l t :
  pending (set_feature_tuples v l) t =
  if decide (t = "feature") then zip feature_columns <$> v else pending l t.
Proof. unfold pending. simpl. by repeat case_decide. Qed.

Lemma pending_set_qualifier v l t :
  pending (set_qualifier_tuples v l) t =
  if decide (t = "feature") then pending l t
  else if decide (t = "qualifier") then zip qualifier_columns <$> v else pending l t.
Proof. unfold pending. simpl. by repeat case_decide. Qed.

Lemma pending_set_record_objs v l t : pending (set_record_objs v l) t = pending l t.
Proof. done. Qed.

(** The loader never loses, reorders or alters a row: whatever the batch
    size, appending a tuple adds its row at the end of what was handed over. *)
Lemma append_feature_grows batch_size v st :
  wp (append_feature batch_size v) st (λ r st' tr,
    r = Ok tt ∧ grows st st' (only "feature" [zip feature_columns v]) ∧
    record_objs (locals st') = record_objs (locals st) ∧
    indexes (database st') = indexes (database st) ∧ warnings tr = []).
Proof.
  unfold wp. rewrite append_feature_run. cbv zeta.
  case_bool_decide; (split_and!; [done| |done..]); intros t; unfold contents; proj.
  - rewrite table_rows_append_rows, pending_set_feature.
    unfold only, pending. case_decide; subst; list_norm.
  - rewrite pending_set_feature. unfold only, pending.
    case_decide; subst; list_norm.
Qed.

Lemma append_qualifier_grows batch_size v st :
  wp (append_qualifier batch_size v) st (λ r st' tr,
    r = Ok tt ∧ grows st st' (only "qualifier" [zip qualifier_columns v]) ∧
    record_objs (locals st') = record_objs (locals st) ∧
    indexes (database st') = indexes (database st) ∧ warnings tr = []).
Proof.
  unfold wp. rewrite append_qualifier_run. cbv zeta.
  case_bool_decide; (split_and!; [done| |done..]); intros t; unfold contents; proj.
  - rewrite table_rows_append_rows, pending_set_qualifier.
    unfold only, pending. repeat case_decide; subst; list_norm.
  - rewrite pending_set_qualifier. unfold only, pending.
    repeat case_decide; subst; list_norm.
Qed.

Lemma hands_over_ret st : wp (ret tt) st (hands_over st (λ _, []) []).
Proof. unfold wp, hands_over. simpl. split_and!; try done. apply grows_refl. Qed.

Lemma hands_over_seq (m k : M unit) st d1 d2 w1 w2 :
  wp m st (hands_over st d1 w1) →
  (∀ st1, wp k st1 (hands_over st1 d2 w2)) →
  wp (m ;; k) st (hands_over st (λ t, d1 t ++ d2 t) (w1 ++ w2)).
Proof.
  intros Hm Hk. apply wp_bind. eapply wp_mono; [exact Hm|].
  intros r st1 tr1 (-> & Hg1 & Hr1 & Hi1 & Hw1).
  eapply wp_mono; [apply Hk|].
  intros r st2 tr2 (-> & Hg2 & Hr2 & Hi2 & Hw2).
  split_and!; [done|by eapply grows_trans|congruence|congruence|].
  by rewrite warnings_app, Hw1, Hw2.
Qed.

Lemma hands_over_ext (m : M unit) st d d' w w' :
  wp m st (hands_over st d w) → (∀ t, d t = d' t) → w = w' →
  wp m st (hands_over st d' w').
Proof.
  intros Hm Hd <-. eapply wp_mono; [exact Hm|].
  intros r st' tr (-> & Hg & ? & ? & ?). split_and!; try done.
  by eapply grows_ext.
Qed.

Lemma for_qualifiers_grows batch_size genome record_obj idx qs st :
  wp (for_qualifiers batch_size genome record_obj idx qs) st
     (hands_over st (only "qualifier" (qualifier_row genome record_obj idx <$> qs)) []).
Proof.
  revert st. induction qs as [|q qs IH]; intros st; cbn [for_qualifiers].
  - eapply hands_over_ext; [apply hands_over_ret| |done].
    intros t. unfold only. by case_decide.
  - eapply hands_over_ext.
    + apply hands_over_seq; [apply append_qualifier_grows|apply IH].
    + intros t. unfold only. by case_decide.
    + done.
Qed.

Lemma for_features_grows batch_size genome record_obj idx fs st :
  wp (for_features batch_size genome record_obj idx fs) st
     (hands_over st (flattened genome record_obj idx fs)
                 (strand_warnings record_obj idx fs)).
Proof.
  revert idx st. induction fs as [|f fs IH]; intros idx st; cbn [for_features].
  - eapply hands_over_ext; [apply hands_over_ret| |done].
    intros t. unfold flattened, only. by repeat case_decide.
  - apply wp_bind. eapply wp_run; [apply location_fields_run|].
    eapply wp_mono.
    + apply hands_over_seq; [apply append_feature_grows|].
      intros st1. apply hands_over_seq; [apply for_qualifiers_grows|].
      intros st2. apply IH.
    + intros r st' tr (-> & Hg & ? & ? & Hw). split_and!; try done.
      * eapply grows_ext; [exact Hg|]. intros t.
        unfold flattened, only. cbn [feature_rows qualifier_rows].
        repeat case_decide; subst; try done; list_norm.
      * rewrite warnings_app, warnings_Warn, Hw. done.
Qed.

(** ** Identifiers and the loop over the records *)

Lemma foldr_max_nonneg (zs : list Z) : (0 ≤ foldr Z.max 0%Z zs)%Z.
Proof. induction zs as [|z zs IH]; simpl; lia. Qed.

Lemma foldr_max_init (a : Z) (zs : list Z) :
  (0 ≤ a)%Z → foldr Z.max a zs = Z.max a (foldr Z.max 0%Z zs).
Proof. intros Ha. induction zs as [|z zs IH]; simpl; lia. Qed.

Lemma next_id_snoc (rs : list row) (fields : row) :
  next_id (rs ++ [("id", PyInt (next_id rs)) :: fields]) = (next_id rs + 1)%Z.
Proof.
  unfold next_id. rewrite fmap_app, foldr_app. cbn [fmap list_fmap foldr row_id].
  pose proof (foldr_max_nonneg (row_id <$> rs)).
  rewrite foldr_max_init by lia. lia.
Qed.

Lemma contents_record st : contents st "record" = table_rows (database st) "record".
Proof. unfold contents, pending. simpl. by rewrite app_nil_r. Qed.

Lemma contents_genome st : contents st "genome" = table_rows (database st) "genome".
Proof. unfold contents, pending. simpl. by rewrite app_nil_r. Qed.

Lemma Record_create_run genome r st :
  Record_create genome (name r) (definition r) (accession r) (version r) st =
  let id := next_id (table_rows (database st) "record") in
  (Ok (record_obj_of id r),
   {| database := append_rows "record" [record_row genome id r] (database st);
      locals := locals st |},
   [Insert "record" (record_row genome id r)]).
Proof. reflexivity. Qed.

Lemma Genome_create_run gbk_path st :
  Genome_create gbk_path st =
  let id := next_id (table_rows (database st) "genome") in
  let r := [("id", PyInt id); ("gbk_path", PyStr gbk_path)] in
  (Ok {| genome_id := id; genome_gbk_path := gbk_path |},
   {| database := append_rows "genome" [r] (database st); locals := locals st |},
   [Insert "genome" r]).
Proof. reflexivity. Qed.

Lemma for_records_grows batch_size genome s st :
  wp (for_records batch_size genome s) st (loop_post genome st s).
Proof.
  revert st. induction s as [|e|r rest IH]; intros st.
  - unfold wp, loop_post. simpl. split_and!; try done.
    + apply grows_refl.
    + by rewrite app_nil_r.
  - unfold wp, loop_post. simpl. split_and!; try done.
    + apply grows_refl.
    + by rewrite app_nil_r.
  - cbn [for_records].
    apply wp_bind. eapply wp_run; [reflexivity|].
    apply wp_bind. eapply wp_run; [apply Record_create_run|]. cbv zeta.
    set (base := next_id (table_rows (database st) "record")).
    apply wp_bind. eapply wp_run; [reflexivity|].
    apply wp_bind. eapply wp_run; [reflexivity|]. proj.
    match goal with |- wp _ ?s _ => set (st1 := s) end.
    apply wp_bind. eapply wp_mono; [apply for_features_grows|].
    intros ? st2 tr2 (-> & Hg2 & Hr2 & Hi2 & Hw2).
    assert (Hrec : table_rows (database st2) "record" =
                   table_rows (database st) "record" ++ [record_row genome base r]).
    { rewrite <- contents_record, Hg2, contents_record. subst st1. proj.
      rewrite table_rows_append_rows. unfold flattened, only. simpl.
      by rewrite !app_nil_r. }
    eapply wp_mono; [apply IH|].
    intros r3 st3 tr3 (-> & Hg3 & Hr3 & Hi3 & Hw3 & _).
    rewrite Hrec in Hg3, Hr3, Hw3.
    change (record_row genome base r) with (("id", PyInt base) :: tl (record_row genome base r))
      in Hg3, Hr3, Hw3.
    unfold base in Hg3, Hr3, Hw3 at 1. rewrite next_id_snoc in Hg3, Hr3, Hw3.
    fold base in Hg3, Hr3, Hw3.
    unfold loop_post. cbv zeta. fold base. cbn [stream_records stream_end stream_result].
    split_and!.
    + done.
    + intros t. rewrite (Hg3 t), (Hg2 t). cbn [loaded].
      unfold contents. subst st1. proj. rewrite pending_set_record_objs.
      rewrite table_rows_append_rows. list_norm.
      unfold only at 1 2. case_decide; subst; [|done].
      by change (pending (locals st) "record") with (@nil row).
    + rewrite Hr3, Hr2. subst st1. proj. cbn [record_objs_of]. list_norm.
    + rewrite Hi3, Hi2. by subst st1.
    + cbn [all_strand_warnings]. simpl. rewrite !warnings_app, Hw2, Hw3. done.
    + done.
Qed.

(** ** The end of the input, and the whole conversion *)

Lemma insert_remaining_run st :
  insert_remaining st =
  (Ok tt,
   {| database :=
        flush_db "qualifier" qualifier_columns (qualifier_tuples (locals st))
          (flush_db "feature" feature_columns (feature_tuples (locals st)) (database st));
      locals := locals st |},
   flush_events "feature" feature_columns (feature_tuples (locals st))
   ++ flush_events "qualifier" qualifier_columns (qualifier_tuples (locals st))).
Proof.
  unfold insert_remaining, mbind, M_bind, bind, get_locals.
  destruct st as [d [ros [|f fs] [|q qs]]]; reflexivity.
Qed.

Lemma table_rows_flush_db table_name columns buffer d t :
  table_rows (flush_db table_name columns buffer d) t =
  table_rows d t ++ only table_name (zip columns <$> buffer) t.
Proof.
  destruct buffer as [|v vs]; [|apply table_rows_append_rows].
  unfold only. simpl. case_decide; by rewrite app_nil_r.
Qed.

Lemma insert_remaining_tables st t :
  table_rows (database (insert_remaining st).1.2) t = contents st t.
Proof.
  rewrite insert_remaining_run. cbn [fst snd database].
  rewrite !table_rows_flush_db. unfold contents, pending, only.
  repeat case_decide; subst; try done; list_norm.
Qed.

Lemma convert_spec rd gbk_path batch_size st :
  wp (convert_gbk_to_sqlite rd gbk_path batch_size) st
     (convert_post rd gbk_path batch_size st).
Proof.
  unfold convert_gbk_to_sqlite.
  apply wp_bind. eapply wp_run; [reflexivity|].
  apply wp_bind. eapply wp_run; [apply Genome_create_run|]. cbv zeta.
  set (gid := next_id (table_rows (database st) "genome")).
  set (genome := {| genome_id := gid; genome_gbk_path := gbk_path |}).
  apply wp_bind. eapply wp_run; [reflexivity|]. proj.
  match goal with |- wp _ ?s _ => set (st1 := s) end.
  assert (Hrec : table_rows (database st1) "record" = table_rows (database st) "record").
  { subst st1. proj. rewrite table_rows_append_rows. unfold only. simpl.
    by rewrite app_nil_r. }
  assert (Hc1 : ∀ t, contents st1 t =
                     table_rows (database st) t ++ only "genome" [genome_row gid gbk_path] t).
  { intros t. unfold contents. subst st1. proj. rewrite table_rows_append_rows.
    unfold pending. simpl. repeat case_decide; by rewrite ?app_nil_r. }
  apply wp_bind. eapply wp_mono; [apply for_records_grows|].
  intros r st2 tr2 (Hr & Hg & Hro & Hi & Hw & Hhd). rewrite Hrec in Hg, Hro, Hw.
  destruct tr2 as [|? tr2]; [done|]. cbn [head] in Hhd. injection Hhd as ->.
  unfold convert_post. cbv zeta. fold gid genome.
  destruct r as [[]|e].
  - unfold wp. pose proof (insert_remaining_tables st2) as Htab.
    rewrite insert_remaining_run in *. cbn [fst snd] in Htab. proj.
    split_and!; [done| |done| | |by eexists].
    + intros t. rewrite Htab, (Hg t), Hc1. list_norm.
    + by destruct (feature_tuples (locals st2)), (qualifier_tuples (locals st2)).
    + change (warnings (Next :: tr2)) with (warnings tr2) in Hw.
      rewrite !warnings_app. change (warnings (Next :: tr2)) with (warnings tr2).
      rewrite Hw.
      by destruct (feature_tuples (locals st2)), (qualifier_tuples (locals st2));
        cbn; rewrite ?app_nil_r.
  - split_and!; [done| |done|done|done|by eexists].
    intros t. rewrite (Hg t), Hc1. list_norm.
Qed.

(** ** The embedding at work *)

Example endswith_gz :
  endswith "genome.gbk.gz" ".gz" = true ∧ endswith "genome.gbk" ".gz" = false
  ∧ endswith "gz" ".gz" = false.
Proof. by vm_compute. Qed.

Example insert_statements :
  insert_sql "feature" feature_columns =
    "INSERT INTO feature (genome_id, record_id, feature_index, location_start, location_end, location_strand) VALUES (?, ?, ?, ?, ?, ?)"
  ∧ insert_sql "qualifier" qualifier_columns =
    "INSERT INTO qualifier (genome_id, record_id, feature_index, key, value) VALUES (?, ?, ?, ?, ?)".
Proof. by vm_compute. Qed.

Example index_statements :
  sql_text ∘ create_statement true <$> the_indexes =
  ["CREATE INDEX IF NOT EXISTS idx_qualifier_feature ON qualifier (feature);";
   "CREATE INDEX IF NOT EXISTS idx_qualifier_feature_key ON qualifier (feature, key);";
   "CREATE INDEX IF NOT EXISTS idx_feature_record ON feature (record);";
   "CREATE INDEX IF NOT EXISTS idx_record_genome ON record (genome);"].
Proof. by vm_compute. Qed.

(** The sample file with batch size 2: the two qualifiers of feature 0 fill
    their buffer first, the feature buffer is full after feature 1, and
    feature 2 waits for the end of the input. *)
Example sample_run :
  trace (convert_gbk_to_sqlite sample_reader "sample.gbk" 2 empty_state) =
  [LogInfo "Converting sample.gbk to SQLite database using batch size 2";
   Insert "genome" [("id", PyInt 1); ("gbk_path", PyStr "sample.gbk")];
   Next;
   Insert "record"
     [("id", PyInt 1); ("genome", PyInt 1); ("name", PyStr "A");
      ("definition", PyStr "first"); ("accession", PyStr "A00001");
      ("version", PyStr "A00001.1")];
   ExecuteMany (insert_sql "qualifier" qualifier_columns)
     [[PyInt 1; PyInt 1; PyInt 0; PyStr "gene"; PyStr "dnaA"];
      [PyInt 1; PyInt 1; PyInt 0; PyStr "product"; PyNone]];
   Commit;
   Warn "Feature 1 of record A does not have strand attribute";
   ExecuteMany (insert_sql "feature" feature_columns)
     [[PyInt 1; PyInt 1; PyInt 0; PyInt 0; PyInt 90; PyStr "+"];
      [PyInt 1; PyInt 1; PyInt 1; PyNone; PyInt 300; PyNone]];
   Commit;
   Next;
   Insert "record"
     [("id", PyInt 2); ("genome", PyInt 1); ("name", PyStr "B");
      ("definition", PyNone); ("accession", PyStr "B00001");
      ("version", PyStr "B00001.1")];
   Next;
   ExecuteMany (insert_sql "feature" feature_columns)
     [[PyInt 1; PyInt 1; PyInt 2; PyInt 400; PyInt 500; PyNone]];
   Commit].
Proof. by vm_compute. Qed.

(** A parse error on the second record with the default batch size: the
    genome and the first record are in, the three feature tuples of the first
    record were still buffered and never reach their table. *)
Example broken_run :
  let run := convert_gbk_to_sqlite sample_reader "broken.gbk" 5000 empty_state in
  outcome run = Err (ParseError "bad record") ∧
  length (table_rows (database (final run)) "genome") = 1%nat ∧
  length (table_rows (database (final run)) "record") = 1%nat ∧
  table_rows (database (final run)) "feature" = [] ∧
  length (feature_tuples (locals (final run))) = 3%nat.
Proof. by vm_compute. Qed.

(** Without [IF NOT EXISTS] the repetition is an error; with it, a name that
    is taken settles the matter before the columns are looked at. *)
Example plain_create_index_twice :
  let plain := execute_sql (CreateIndex false "idx_feature_record" "feature" ["record_id"]) in
  let guarded := execute_sql (CreateIndex true "idx_feature_record" "feature" ["record"]) in
  outcome ((plain ;; plain) empty_state)
  = Err (DatabaseError "index idx_feature_record already exists") ∧
  outcome ((plain ;; guarded) empty_state) = Ok tt ∧
  outcome (guarded empty_state) = Err (DatabaseError "no such column: record").
Proof. by vm_compute. Qed.

(** ** C1: batching is transparent *)

(** C1.  For an input whose records all parse (the generator stops normally),
    the conversion ends normally whatever the batch size, and any two batch
    sizes leave every table with the same rows in the same order; this holds
    in particular for the sizes 1 and 5000, and for any two positive sizes. *)
Theorem batching_is_transparent rd gbk_path (b1 b2 : Z) st :
  stream_end (iter_gb_records rd gbk_path) = None →
  let run1 := convert_gbk_to_sqlite rd gbk_path b1 st in
  let run2 := convert_gbk_to_sqlite rd gbk_path b2 st in
  outcome run1 = Ok tt ∧ outcome run2 = Ok tt ∧
  ∀ t, table_rows (database (final run1)) t = table_rows (database (final run2)) t.
Proof.
  intros Hend run1 run2.
  pose proof (convert_spec rd gbk_path b1 st) as H1.
  pose proof (convert_spec rd gbk_path b2 st) as H2.
  apply wp_run_of in H1, H2. fold run1 in H1. fold run2 in H2.
  destruct H1 as (Hr1 & Ht1 & _), H2 as (Hr2 & Ht2 & _).
  unfold stream_result in Hr1, Hr2. rewrite Hend in Hr1, Hr2.
  rewrite Hr1 in Ht1. rewrite Hr2 in Ht2.
  split_and!; [done..|]. intros t. by rewrite Ht1, Ht2.
Qed.

Lemma batching_is_transparent_witness :
  stream_end (iter_gb_records sample_reader "sample.gbk") = None ∧
  let run1 := convert_gbk_to_sqlite sample_reader "sample.gbk" 1 empty_state in
  let run2 := convert_gbk_to_sqlite sample_reader "sample.gbk" 5000 empty_state in
  outcome run1 = Ok tt ∧ outcome run2 = Ok tt ∧
  ∀ t, table_rows (database (final run1)) t = table_rows (database (final run2)) t.
Proof.
  split; [reflexivity|].
  apply (batching_is_transparent sample_reader "sample.gbk" 1 5000 empty_state).
  reflexivity.
Defined.

(** ** C9: the genome row comes first *)

(** C9.  The Genome row for [gbk_path] is inserted before the generator is
    resumed for the first time, that is before the file is opened or any
    record parsed: the trace of every conversion starts with the log line,
    then that insert, then the first [Next].  When the reader then raises an
    [IOError] or a [ParseError], on the first record or on a later one, the
    conversion raises it, and the genome table of the database it leaves
    behind ends with that row. *)
Theorem genome_row_precedes_reading rd gbk_path batch_size st e :
  stream_end (iter_gb_records rd gbk_path) = Some e →
  let run := convert_gbk_to_sqlite rd gbk_path batch_size st in
  let g := genome_row (next_id (table_rows (database st) "genome")) gbk_path in
  outcome run = Err e ∧
  (∃ tr', trace run = LogInfo (log_line gbk_path batch_size)
                      :: Insert "genome" g :: Next :: tr') ∧
  table_rows (database (final run)) "genome" = table_rows (database st) "genome" ++ [g].
Proof.
  intros Hend run g.
  pose proof (convert_spec rd gbk_path batch_size st) as H.
  apply wp_run_of in H. fold run in H.
  destruct H as (Hr & Ht & _ & _ & _ & Htr).
  unfold stream_result in Hr. rewrite Hend in Hr. rewrite Hr in Ht.
  split_and!; [done..|].
  rewrite <- contents_genome, Ht.
  assert (Hnone : ∀ genome base rs, loaded genome base rs "genome" = []).
  { intros genome base rs. revert base. induction rs as [|r rs IH]; intros base; [done|].
    cbn [loaded]. rewrite IH. done. }
  by rewrite Hnone, app_nil_r.
Qed.

Lemma genome_row_precedes_reading_witness :
  stream_end (iter_gb_records sample_reader "sample.gbk.gz")
  = Some (IOError "cannot open sample.gbk.gz") ∧
  let run := convert_gbk_to_sqlite sample_reader "sample.gbk.gz" 5000 empty_state in
  let g := genome_row (next_id (table_rows (database empty_state) "genome"))
             "sample.gbk.gz" in
  outcome run = Err (IOError "cannot open sample.gbk.gz") ∧
  (∃ tr', trace run = LogInfo (log_line "sample.gbk.gz" 5000)
                      :: Insert "genome" g :: Next :: tr') ∧
  table_rows (database (final run)) "genome"
  = table_rows (database empty_state) "genome" ++ [g].
Proof.
  split; [reflexivity|].
  apply (genome_row_precedes_reading sample_reader "sample.gbk.gz" 5000 empty_state).
  reflexivity.
Defined.

(** ** C5: the end of the input *)

(** C5.  A bulk insert of no tuples does nothing at all: no statement, no
    commit, the database as it was.  After the loop each buffer that holds
    anything goes out in exactly one batch, all of it, whatever its size,
    features before qualifiers; an empty buffer causes no call.  Afterwards
    every table holds what was stored plus what was buffered. *)
Theorem remaining_rows_flushed_once :
  (∀ table_name columns st,
     _bulk_insert_tuples [] table_name columns st = (Ok tt, st, [])) ∧
  ∀ st,
    let run := insert_remaining st in
    let fs := feature_tuples (locals st) in
    let qs := qualifier_tuples (locals st) in
    outcome run = Ok tt ∧
    trace run =
      (if decide (fs = []) then []
       else [ExecuteMany (insert_sql "feature" feature_columns) fs; Commit])
      ++ (if decide (qs = []) then []
          else [ExecuteMany (insert_sql "qualifier" qualifier_columns) qs; Commit]) ∧
    (fs = [] → qs = [] → database (final run) = database st) ∧
    ∀ t, table_rows (database (final run)) t = contents st t.
Proof.
  split; [done|]. intros st run fs qs.
  pose proof (insert_remaining_tables st) as Ht. fold run in Ht.
  subst run fs qs. rewrite insert_remaining_run in *.
  unfold outcome, trace, final. cbn [fst snd database].
  split_and!; [done| | |exact Ht].
  - by destruct (feature_tuples (locals st)), (qualifier_tuples (locals st)).
  - by intros -> ->.
Qed.

(** ** C4: the length check after each append *)

(** C4.  Appending a tuple to the feature buffer and checking its length:
    when the buffer, the new tuple included, has reached [batch_size], exactly
    that buffer goes to the feature table in one batch and is cleared; below
    [batch_size] nothing is sent and the tuple stays buffered.  Either way the
    qualifier buffer and the qualifier table are left as they were.  The same
    holds with the two streams exchanged. *)
Theorem append_checks_own_buffer batch_size v st :
  (let run := append_feature batch_size v st in
   let buffer := feature_tuples (locals st) ++ [v] in
   outcome run = Ok tt ∧
   qualifier_tuples (locals (final run)) = qualifier_tuples (locals st) ∧
   table_rows (database (final run)) "qualifier" = table_rows (database st) "qualifier" ∧
   ((batch_size ≤ Z.of_nat (length buffer))%Z →
      trace run = [ExecuteMany (insert_sql "feature" feature_columns) buffer; Commit] ∧
      table_rows (database (final run)) "feature"
      = table_rows (database st) "feature" ++ (zip feature_columns <$> buffer) ∧
      feature_tuples (locals (final run)) = []) ∧
   ((Z.of_nat (length buffer) < batch_size)%Z →
      trace run = [] ∧ database (final run) = database st ∧
      feature_tuples (locals (final run)) = buffer)) ∧
  (let run := append_qualifier batch_size v st in
   let buffer := qualifier_tuples (locals st) ++ [v] in
   outcome run = Ok tt ∧
   feature_tuples (locals (final run)) = feature_tuples (locals st) ∧
   table_rows (database (final run)) "feature" = table_rows (database st) "feature" ∧
   ((batch_size ≤ Z.of_nat (length buffer))%Z →
      trace run = [ExecuteMany (insert_sql "qualifier" qualifier_columns) buffer; Commit] ∧
      table_rows (database (final run)) "qualifier"
      = table_rows (database st) "qualifier" ++ (zip qualifier_columns <$> buffer) ∧
      qualifier_tuples (locals (final run)) = []) ∧
   ((Z.of_nat (length buffer) < batch_size)%Z →
      trace run = [] ∧ database (final run) = database st ∧
      qualifier_tuples (locals (final run)) = buffer)).
Proof.
  split; cbv zeta.
  - rewrite append_feature_run. cbv zeta. unfold outcome, final, trace.
    case_bool_decide; proj; split_and!; try done; try (intros ?; lia).
    + by rewrite table_rows_append_rows, app_nil_r.
    + intros _. split_and!; [done| |done].
      rewrite table_rows_append_rows. unfold only. by rewrite decide_True.
  - rewrite append_qualifier_run. cbv zeta. unfold outcome, final, trace.
    case_bool_decide; proj; split_and!; try done; try (intros ?; lia).
    + by rewrite table_rows_append_rows, app_nil_r.
    + intros _. split_and!; [done| |done].
      rewrite table_rows_append_rows. unfold only. by rewrite decide_True.
Qed.

(** ** C3: the location fields of a feature row *)

(** C3.  Processing one feature never raises and hands over exactly one
    feature row.  When the location exposes start, end and strand, the row
    carries start and end as they are and the strand as its string form, or
    as absent when the strand is [None], and no warning is emitted.  When the
    location has no strand attribute, exactly one warning is emitted, naming
    the feature index and the record name; the strand is recorded as absent,
    start and end each as its value when the attribute is there and as absent
    otherwise. *)
Theorem location_fields_of_feature_row batch_size genome record_obj idx f st :
  let run := for_features batch_size genome record_obj idx [f] st in
  outcome run = Ok tt ∧
  ∃ r,
    contents (final run) "feature" = contents st "feature" ++ [r] ∧
    column "feature_index" r = Some (PyInt (Z.of_nat idx)) ∧
    match location f with
    | Stranded start end_ strand =>
      column "location_start" r = Some start ∧
      column "location_end" r = Some end_ ∧
      column "location_strand" r =
        Some (match strand with PyNone => PyNone | _ => PyStr (py_str strand) end) ∧
      warnings (trace run) = []
    | Unstranded start end_ =>
      column "location_start" r = Some (default PyNone start) ∧
      column "location_end" r = Some (default PyNone end_) ∧
      column "location_strand" r = Some PyNone ∧
      warnings (trace run) =
        ["Feature " +:+ pretty idx +:+ " of record " +:+ py_str (record_name record_obj)
         +:+ " does not have strand attribute"]
    end.
Proof.
  intros run.
  pose proof (for_features_grows batch_size genome record_obj idx [f] st) as H.
  apply wp_run_of in H. fold run in H. destruct H as (Hr & Hg & _ & _ & Hw).
  split; [done|]. exists (feature_row genome record_obj idx f).
  split; [|split; [done|]].
  - rewrite (Hg "feature"). unfold flattened, only. simpl. reflexivity.
  - rewrite Hw. cbn [strand_warnings]. rewrite app_nil_r.
    unfold feature_row. by destruct (location f) as [s e [| |]|s e].
Qed.

(** ** C2: feature indices *)

Lemma column_feature_rows genome record_obj idx fs :
  column "feature_index" <$> feature_rows genome record_obj idx fs =
  (λ n, Some (PyInt (Z.of_nat n))) <$> seq idx (length fs).
Proof.
  revert idx. induction fs as [|f fs IH]; intros idx; [done|].
  cbn [feature_rows length seq fmap list_fmap]. f_equal. apply IH.
Qed.

Lemma filter_feature_rows_same genome record_obj idx fs :
  filter (of_record (record_id record_obj)) (feature_rows genome record_obj idx fs) =
  feature_rows genome record_obj idx fs.
Proof.
  revert idx. induction fs as [|f fs IH]; intros idx; [done|].
  cbn [feature_rows]. rewrite filter_cons_True by done. by rewrite IH.
Qed.

Lemma filter_feature_rows_other genome record_obj id idx fs :
  record_id record_obj ≠ id →
  filter (of_record id) (feature_rows genome record_obj idx fs) = [].
Proof.
  intros Hne. revert idx. induction fs as [|f fs IH]; intros idx; [done|].
  cbn [feature_rows]. rewrite filter_cons_False; [apply IH|].
  unfold of_record, feature_row. simpl. congruence.
Qed.

Lemma loaded_feature_cons genome base r rs :
  loaded genome base (r :: rs) "feature" =
  feature_rows genome (record_obj_of base r) 0 (features r)
  ++ loaded genome (base + 1) rs "feature".
Proof. cbn [loaded]. unfold flattened, only. simpl. by rewrite app_nil_r. Qed.

Lemma filter_loaded_below genome base id rs :
  (id < base)%Z → filter (of_record id) (loaded genome base rs "feature") = [].
Proof.
  revert base. induction rs as [|r rs IH]; intros base Hlt; [done|].
  rewrite loaded_feature_cons, filter_app, IH by lia.
  rewrite filter_feature_rows_other; [done|]. simpl. lia.
Qed.

Lemma filter_loaded genome base rs i r :
  rs !! i = Some r →
  record_objs_of base rs !! i = Some (record_obj_of (base + Z.of_nat i) r) ∧
  filter (of_record (base + Z.of_nat i)) (loaded genome base rs "feature") =
  feature_rows genome (record_obj_of (base + Z.of_nat i) r) 0 (features r).
Proof.
  revert base i. induction rs as [|r0 rs IH]; intros base i Hi; [done|].
  rewrite loaded_feature_cons, filter_app. destruct i as [|i].
  - simplify_eq/=. rewrite Z.add_0_r. split; [done|].
    change base with (record_id (record_obj_of base r)) at 1.
    rewrite filter_feature_rows_same.
    rewrite filter_loaded_below by (simpl; lia). by rewrite app_nil_r.
  - cbn [lookup list_lookup] in Hi. destruct (IH (base + 1)%Z i Hi) as [Ho Hf].
    replace (base + Z.of_nat (S i))%Z with (base + 1 + Z.of_nat i)%Z by lia.
    split; [exact Ho|].
    rewrite filter_feature_rows_other by (simpl; lia). exact Hf.
Qed.

(** C2.  Take any conversion, finished or cut short by the reader, and the
    feature rows it has handed to the loader: those stored, and when the run
    was cut short those still buffered.  For every record the parser yielded,
    the rows carrying the id of its record object have, in the order they
    were handed over, the feature indices 0, 1, ..., count - 1, where count
    is the number of features of the record.  Rows are only ever added at the
    end, so a later flush renumbers nothing. *)
Theorem feature_indices_enumerate rd gbk_path batch_size st :
  let run := convert_gbk_to_sqlite rd gbk_path batch_size st in
  let rs := stream_records (iter_gb_records rd gbk_path) in
  ∃ new : list row,
    match outcome run with
    | Ok _ => table_rows (database (final run)) "feature"
    | Err _ => contents (final run) "feature"
    end = table_rows (database st) "feature" ++ new ∧
    length (record_objs (locals (final run))) = length rs ∧
    ∀ i r record_obj,
      rs !! i = Some r →
      record_objs (locals (final run)) !! i = Some record_obj →
      column "feature_index" <$> filter (of_record (record_id record_obj)) new =
      (λ n, Some (PyInt (Z.of_nat n))) <$> seq 0 (length (features r)).
Proof.
  intros run rs.
  pose proof (convert_spec rd gbk_path batch_size st) as H.
  apply wp_run_of in H. fold run in H.
  destruct H as (_ & Ht & Hro & _). fold rs in Ht, Hro.
  eexists. split; [|split].
  - rewrite (Ht "feature"). unfold only at 1. simpl. reflexivity.
  - rewrite Hro. clear. generalize (next_id (table_rows (database st) "record")).
    induction rs as [|r rs IH]; intros base; [done|]. simpl. by rewrite IH.
  - intros i r record_obj Hi Ho. rewrite Hro in Ho.
    match type of Ht with context [loaded ?g ?b rs] =>
      destruct (filter_loaded g b rs i r Hi) as [Ho' Hf] end.
    rewrite Ho' in Ho. injection Ho as <-. cbn [record_id record_obj_of].
    rewrite Hf. apply column_feature_rows.
Qed.

(** ** C8: the buffers stay below the batch size *)

Lemma batches_app tr1 tr2 : batches (tr1 ++ tr2) = batches tr1 ++ batches tr2.
Proof. apply omap_app. Qed.

Lemma bounded_app batch_size tr1 tr2 :
  bounded batch_size tr1 → bounded batch_size tr2 → bounded batch_size (tr1 ++ tr2).
Proof. unfold bounded. rewrite batches_app. apply Forall_app_2. Qed.

Lemma bounded_quiet batch_size tr : batches tr = [] → bounded batch_size tr.
Proof. unfold bounded. intros ->. constructor. Qed.

Lemma preserves_bind {A B} batch_size (m : M A) (k : A → M B) :
  preserves batch_size m → (∀ a, preserves batch_size (k a)) →
  preserves batch_size (m ≫= k).
Proof.
  intros Hm Hk st Hst. apply wp_bind. eapply wp_mono; [by apply Hm|].
  intros [a|e] st1 tr1 [Hb1 Ht1]; [|done].
  eapply wp_mono; [by apply Hk|].
  intros r st2 tr2 [Hb2 Ht2]. split; [done|by apply bounded_app].
Qed.

Lemma preserves_quiet {A} batch_size (m : M A) :
  (∀ st, ∃ r d tr, m st = (r, {| database := d; locals := locals st |}, tr)
                   ∧ batches tr = []) →
  preserves batch_size m.
Proof.
  intros H st Hst. destruct (H st) as (r & d & tr & Heq & Htr).
  eapply wp_run; [exact Heq|]. split; [done|]. unfold bounded. by rewrite Htr.
Qed.

Section positive_batch_size.

Context (batch_size : Z) (Hpos : (0 < batch_size)%Z).

Lemma preserves_append_feature v : preserves batch_size (append_feature batch_size v).
Proof.
  intros st [Hf Hq]. unfold wp. rewrite append_feature_run. cbv zeta.
  rewrite length_app in *. cbn [length] in *.
  case_bool_decide; unfold below, bounded; proj; cbn [length batches omap].
  - split; [split; [lia|done]|].
    repeat constructor; cbn [snd]; rewrite length_app; simpl; lia.
  - split; [split; [rewrite length_app; simpl; lia|done]|constructor].
Qed.

Lemma preserves_append_qualifier v :
  preserves batch_size (append_qualifier batch_size v).
Proof.
  intros st [Hf Hq]. unfold wp. rewrite append_qualifier_run. cbv zeta.
  rewrite length_app in *. cbn [length] in *.
  case_bool_decide; unfold below, bounded; proj; cbn [length batches omap].
  - split; [split; [done|lia]|].
    repeat constructor; cbn [snd]; rewrite length_app; simpl; lia.
  - split; [split; [done|rewrite length_app; simpl; lia]|constructor].
Qed.

Lemma preserves_for_qualifiers genome record_obj idx qs :
  preserves batch_size (for_qualifiers batch_size genome record_obj idx qs).
Proof.
  induction qs as [|q qs IH]; cbn [for_qualifiers].
  - apply preserves_quiet. intros [d l]. by eexists _, _, _.
  - apply preserves_bind; [apply preserves_append_qualifier|done].
Qed.

Lemma preserves_for_features genome record_obj idx fs :
  preserves batch_size (for_features batch_size genome record_obj idx fs).
Proof.
  revert idx. induction fs as [|f fs IH]; intros idx; cbn [for_features].
  - apply preserves_quiet. intros [d l]. by eexists _, _, _.
  - apply preserves_bind.
    + apply preserves_quiet. intros [d l]. rewrite location_fields_run.
      eexists _, _, _. split; [done|]. by destruct (location f).
    + intros [[s e] v]. apply preserves_bind; [apply preserves_append_feature|].
      intros _. apply preserves_bind; [apply preserves_for_qualifiers|done].
Qed.

Lemma preserves_for_records genome s :
  preserves batch_size (for_records batch_size genome s).
Proof.
  induction s as [|e|r rest IH]; cbn [for_records].
  - apply preserves_quiet. intros [d l]. by eexists _, _, _.
  - apply preserves_quiet. intros [d l]. by eexists _, _, _.
  - apply preserves_bind; [apply preserves_quiet; intros [d l]; by eexists _, _, _|].
    intros _. apply preserves_bind.
    + apply preserves_quiet. intros st. rewrite Record_create_run. by eexists _, _, _.
    + intros record_obj. intros st Hst.
      apply wp_bind. eapply wp_run; [reflexivity|].
      apply wp_bind. eapply wp_run; [reflexivity|].
      eapply wp_mono.
      * apply (preserves_bind batch_size
                 (for_features batch_size genome record_obj 0 (features r))
                 (λ _, for_records batch_size genome rest));
          [apply preserves_for_features|intros _; exact IH|exact Hst].
      * by intros r' st' tr [? ?].
Qed.

Lemma bounded_insert_remaining st :
  below batch_size (locals st) → bounded batch_size (trace (insert_remaining st)).
Proof.
  intros [Hf Hq]. rewrite insert_remaining_run. unfold trace, bounded. cbn [snd].
  destruct (feature_tuples (locals st)) as [|f fs],
           (qualifier_tuples (locals st)) as [|q qs];
    repeat constructor; cbn [snd length] in *; lia.
Qed.

Lemma convert_bounded rd gbk_path st :
  bounded batch_size (trace (convert_gbk_to_sqlite rd gbk_path batch_size st)).
Proof.
  assert (Hinit : below batch_size no_locals) by (split; simpl; lia).
  apply (wp_run_of _ _ (λ _ _ tr, bounded batch_size tr)).
  unfold convert_gbk_to_sqlite.
  apply wp_bind. eapply wp_run; [reflexivity|].
  apply wp_bind. eapply wp_run; [apply Genome_create_run|]. cbv zeta.
  apply wp_bind. eapply wp_run; [reflexivity|].
  apply wp_bind. eapply wp_mono.
  - by apply preserves_for_records.
  - intros [[]|e] st2 tr2 [Hb Ht].
    + apply wp_run_of.
      do 3 (apply bounded_app; [by apply bounded_quiet|]).
      apply bounded_app; [done|by apply bounded_insert_remaining].
    + by do 3 (apply bounded_app; [by apply bounded_quiet|]).
Qed.

End positive_batch_size.

(** C8.  For a batch size of at least 1: the buffers start empty, hence below
    the batch size; each append-and-check step entered with both buffers
    below the batch size leaves both below it; and so every batch the
    conversion sends, during the loop or at the end of the input, holds at
    least one and at most [batch_size] tuples. *)
Theorem buffers_stay_below_batch_size rd gbk_path batch_size st :
  (1 ≤ batch_size)%Z →
  below batch_size no_locals ∧
  (∀ v st0, below batch_size (locals st0) →
     below batch_size (locals (final (append_feature batch_size v st0))) ∧
     below batch_size (locals (final (append_qualifier batch_size v st0)))) ∧
  Forall (λ b, (1 ≤ Z.of_nat (length b.2) ≤ batch_size)%Z)
         (batches (trace (convert_gbk_to_sqlite rd gbk_path batch_size st))).
Proof.
  intros Hpos. split_and!.
  - split; simpl; lia.
  - intros v st0 Hst. split.
    + pose proof (preserves_append_feature batch_size ltac:(lia) v st0 Hst) as H.
      apply wp_run_of in H. apply H.
    + pose proof (preserves_append_qualifier batch_size ltac:(lia) v st0 Hst) as H.
      apply wp_run_of in H. apply H.
  - apply convert_bounded. lia.
Qed.

Lemma buffers_stay_below_batch_size_witness :
  (1 ≤ 2)%Z ∧
  below 2 no_locals ∧
  (∀ v st0, below 2 (locals st0) →
     below 2 (locals (final (append_feature 2 v st0))) ∧
     below 2 (locals (final (append_qualifier 2 v st0)))) ∧
  Forall (λ b, (1 ≤ Z.of_nat (length b.2) ≤ 2)%Z)
         (batches (trace (convert_gbk_to_sqlite sample_reader "sample.gbk" 2 empty_state))).
Proof.
  split; [lia|].
  apply (buffers_stay_below_batch_size sample_reader "sample.gbk" 2 empty_state). lia.
Defined.

(** ** C7: index creation *)

Lemma execute_sql_create index table columns known st :
  table_columns table = Some known →
  execute_sql (CreateIndex true index table columns) st =
  let sent := [ExecuteSql (sql_text (CreateIndex true index table columns))] in
  if bool_decide (index ∈ index_names (database st)) then (Ok tt, st, sent)
  else match filter (λ c, c ∉ known) columns with
       | c :: _ => (Err (DatabaseError ("no such column: " +:+ c)), st, sent)
       | [] => (Ok tt,
                {| database := add_index {| idx_name := index; idx_table := table;
                                            idx_columns := columns |} (database st);
                   locals := locals st |}, sent)
       end.
Proof.
  intros Hknown. cbv zeta.
  unfold execute_sql, mbind, M_bind, bind, emit, read_db. rewrite Hknown.
  case_bool_decide; [done|]. by destruct (filter _ columns).
Qed.

(** What [create_indexes] does, by the index names already taken.  The first
    three statements name a column their table does not have, so each of them
    passes only when its index name is taken. *)
Lemma create_indexes_run st :
  create_indexes st =
  let names := index_names (database st) in
  let sent := ExecuteSql ∘ sql_text ∘ create_statement true <$> the_indexes in
  if bool_decide ("idx_qualifier_feature" ∈ names) then
    if bool_decide ("idx_qualifier_feature_key" ∈ names) then
      if bool_decide ("idx_feature_record" ∈ names) then
        if bool_decide ("idx_record_genome" ∈ names) then
          (Ok tt, st, Begin :: sent ++ [Commit])
        else
          (Ok tt,
           {| database :=
                add_index {| idx_name := "idx_record_genome"; idx_table := "record";
                             idx_columns := ["genome"] |} (database st);
              locals := locals st |},
           Begin :: sent ++ [Commit])
      else
        (Err (DatabaseError "no such column: record"), st,
         Begin :: take 3 sent ++ [Rollback])
    else
      (Err (DatabaseError "no such column: feature"), st,
       Begin :: take 2 sent ++ [Rollback])
  else
    (Err (DatabaseError "no such column: feature"), st,
     Begin :: take 1 sent ++ [Rollback]).
Proof.
  cbv zeta. destruct st as [d l].
  unfold create_indexes, with_db, mbind, M_bind, bind.
  rewrite (execute_sql_create _ _ _ qualifier_columns) by reflexivity. cbv zeta.
  cbn [database]. case_bool_decide; [|reflexivity].
  rewrite (execute_sql_create _ _ _ qualifier_columns) by reflexivity. cbv zeta.
  cbn [database]. case_bool_decide; [|reflexivity].
  rewrite (execute_sql_create _ _ _ feature_columns) by reflexivity. cbv zeta.
  cbn [database]. case_bool_decide; [|reflexivity].
  rewrite (execute_sql_create _ _ _ ["id"; "genome"; "name"; "definition"; "accession";
                                     "version"]) by reflexivity. cbv zeta.
  cbn [database]. case_bool_decide; reflexivity.
Qed.

(** C7.  On a database in which the name [idx_qualifier_feature] is free, as
    on every database no index was created on, [create_indexes] raises at its
    first statement: the qualifier table has no column [feature].  The
    transaction of [with db:] is rolled back, so the database is as it was and
    holds none of the four indexes through this call; a second call meets the
    same database and raises the same error. *)
Theorem create_indexes_raises st :
  "idx_qualifier_feature" ∉ index_names (database st) →
  let once := create_indexes st in
  let twice := create_indexes (final once) in
  outcome once = Err (DatabaseError "no such column: feature") ∧
  trace once =
    [Begin;
     ExecuteSql "CREATE INDEX IF NOT EXISTS idx_qualifier_feature ON qualifier (feature);";
     Rollback] ∧
  final once = st ∧
  outcome twice = Err (DatabaseError "no such column: feature") ∧
  final twice = st.
Proof.
  intros Hfree once twice.
  assert (Hrun : create_indexes st =
                 (Err (DatabaseError "no such column: feature"), st,
                  [Begin;
                   ExecuteSql "CREATE INDEX IF NOT EXISTS idx_qualifier_feature ON qualifier (feature);";
                   Rollback])).
  { rewrite create_indexes_run. cbv zeta. by rewrite bool_decide_eq_false_2. }
  subst twice once. rewrite Hrun. unfold outcome, final, trace. cbn [fst snd].
  rewrite Hrun. done.
Qed.

Lemma create_indexes_raises_witness :
  let st := final (convert_gbk_to_sqlite sample_reader "sample.gbk" 2 empty_state) in
  ("idx_qualifier_feature" ∉ index_names (database st)) ∧
  length (table_rows (database st) "qualifier") = 2%nat ∧
  outcome (create_indexes st) = Err (DatabaseError "no such column: feature") ∧
  outcome (create_indexes (final (create_indexes st)))
  = Err (DatabaseError "no such column: feature") ∧
  indexes (database (final (create_indexes (final (create_indexes st))))) = [].
Proof.
  cbv zeta.
  assert (Hfree : "idx_qualifier_feature" ∉
            index_names (database (final (convert_gbk_to_sqlite sample_reader "sample.gbk"
                                            2 empty_state))))
    by (vm_compute; apply not_elem_of_nil).
  destruct (create_indexes_raises _ Hfree) as (H1 & _ & H2 & H3 & H4).
  split_and!; [exact Hfree|by vm_compute|exact H1|exact H3|].
  rewrite H4. by vm_compute.
Defined.

(** ** C6: the two-record scenario *)

Lemma for_qualifiers_feature_buffer batch_size genome record_obj idx qs st :
  wp (for_qualifiers batch_size genome record_obj idx qs) st (λ r st' _,
    r = Ok tt ∧ feature_tuples (locals st') = feature_tuples (locals st)).
Proof.
  revert st. induction qs as [|q qs IH]; intros st; [done|].
  cbn [for_qualifiers]. apply wp_bind. eapply wp_eq; [apply append_qualifier_run|].
  cbv zeta. case_bool_decide; (eapply wp_mono; [apply IH|]); by intros r st' tr [-> ->].
Qed.

(** Once the features still to come fill the buffer up to the batch size, a
    feature batch goes out before the loop over the features ends. *)
Lemma for_features_flushes batch_size genome record_obj idx fs st :
  (Z.of_nat (length (feature_tuples (locals st))) < batch_size)%Z →
  (batch_size ≤ Z.of_nat (length (feature_tuples (locals st)) + length fs))%Z →
  wp (for_features batch_size genome record_obj idx fs) st (λ r _ tr,
    r = Ok tt ∧ ∃ vs, feature_batch vs ∈ tr).
Proof.
  revert idx st. induction fs as [|f fs IH]; intros idx st Hlt Hge.
  { simpl in Hge. lia. }
  cbn [for_features]. apply wp_bind. eapply wp_run; [apply location_fields_run|].
  apply wp_bind. eapply wp_eq; [apply append_feature_run|]. cbv zeta.
  rewrite length_app. cbn [length].
  case_bool_decide as Hfull.
  - pose proof (hands_over_seq
      (for_qualifiers batch_size genome record_obj idx (qualifiers f))
      (for_features batch_size genome record_obj (S idx) fs)) as Hok.
    eapply wp_mono.
    + eapply Hok; [apply for_qualifiers_grows|intros; apply for_features_grows].
    + intros r st' tr (-> & _). split; [done|]. eexists.
      apply elem_of_app. right. apply elem_of_app. left. left.
  - apply wp_bind. eapply wp_mono; [apply for_qualifiers_feature_buffer|].
    intros ? st1 tr1 [-> Hbuf]. proj.
    eapply wp_mono.
    + apply IH; rewrite Hbuf, length_app; simpl in *; lia.
    + intros r st2 tr2 [-> [vs Hvs]]. split; [done|]. exists vs.
      rewrite !elem_of_app. auto.
Qed.

(** When the first record has at least [batch_size] features, a feature batch
    is sent before the generator is resumed for the next record. *)
Lemma midstream_flush rd gbk_path batch_size st r rest :
  iter_gb_records rd gbk_path = Yield r rest →
  (0 < batch_size ≤ Z.of_nat (length (features r)))%Z →
  ∃ pre vs post,
    trace (convert_gbk_to_sqlite rd gbk_path batch_size st)
    = pre ++ feature_batch vs :: post ∧ Next ∈ post.
Proof.
  intros Hs Hb.
  apply (wp_run_of _ _ (λ _ _ tr, ∃ pre vs post, tr = pre ++ feature_batch vs :: post
                                                 ∧ Next ∈ post)).
  unfold convert_gbk_to_sqlite. rewrite Hs.
  apply wp_bind. eapply wp_run; [reflexivity|].
  apply wp_bind. eapply wp_run; [apply Genome_create_run|]. cbv zeta.
  apply wp_bind. eapply wp_run; [reflexivity|].
  apply wp_bind. cbn [for_records].
  apply wp_bind. eapply wp_run; [reflexivity|].
  apply wp_bind. eapply wp_run; [apply Record_create_run|]. cbv zeta.
  apply wp_bind. eapply wp_run; [reflexivity|].
  apply wp_bind. eapply wp_run; [reflexivity|].
  apply wp_bind. eapply wp_mono.
  { apply for_features_flushes; proj; simpl; lia. }
  intros ? st1 tr1 [-> [vs Hvs]].
  apply list_elem_of_split in Hvs as (l1 & l2 & ->).
  eapply wp_mono; [apply for_records_grows|].
  intros r2 st2 tr2 (_ & _ & _ & _ & _ & Hhd).
  destruct tr2 as [|? tr2]; [done|]. cbn [head] in Hhd. injection Hhd as ->.
  assert (Hgoal : ∀ tl, ∃ pre vs0 post,
    [LogInfo (log_line gbk_path batch_size)] ++
    [Insert "genome" (genome_row (next_id (table_rows (database st) "genome")) gbk_path)]
    ++ [] ++ ([Next] ++ [Insert "record" (record_row
         {| genome_id := next_id (table_rows (database st) "genome");
            genome_gbk_path := gbk_path |}
         (next_id (table_rows (append_rows "genome"
            [genome_row (next_id (table_rows (database st) "genome")) gbk_path]
            (database st)) "record")) r)]
       ++ [] ++ [] ++ (l1 ++ feature_batch vs :: l2) ++ Next :: tr2) ++ tl
    = pre ++ feature_batch vs0 :: post ∧ Next ∈ post).
  { intros tl. eexists (_ :: _ :: _ :: _ :: l1), vs, (l2 ++ Next :: tr2 ++ tl).
    split; [list_norm|]. rewrite elem_of_app. right. left. }
  destruct r2 as [[]|e].
  - apply wp_any. intros _ _ tr3. apply Hgoal.
  - specialize (Hgoal []). by rewrite app_nil_r in Hgoal.
Qed.

Lemma length_qualifier_rows genome record_obj idx fs :
  length (qualifier_rows genome record_obj idx fs)
  = sum_list (length ∘ qualifiers <$> fs).
Proof.
  revert idx. induction fs as [|f fs IH]; intros idx; [done|].
  cbn [qualifier_rows]. rewrite length_app, length_fmap, IH. done.
Qed.

Lemma length_feature_rows genome record_obj idx fs :
  length (feature_rows genome record_obj idx fs) = length fs.
Proof. revert idx. induction fs as [|f fs IH]; intros idx; [done|]. simpl. by rewrite IH. Qed.

(** C6.  A file of two records, the first with three features of which one
    has two qualifiers and the other two none, the second without features,
    converted with batch size 2: the conversion ends normally having added
    exactly 2 qualifier rows, 3 feature rows, 2 record rows and 1 genome row,
    and a feature batch goes out while the input is still being read, before
    the generator is resumed again. *)
Theorem two_record_scenario rd gbk_path st record_a record_b :
  iter_gb_records rd gbk_path = Yield record_a (Yield record_b StopIteration) →
  length ∘ qualifiers <$> features record_a ≡ₚ [2; 0; 0]%nat →
  features record_b = [] →
  let run := convert_gbk_to_sqlite rd gbk_path 2 st in
  let rows t := length (table_rows (database (final run)) t) in
  let rows0 t := length (table_rows (database st) t) in
  outcome run = Ok tt ∧
  rows "qualifier" = (rows0 "qualifier" + 2)%nat ∧
  rows "feature" = (rows0 "feature" + 3)%nat ∧
  rows "record" = (rows0 "record" + 2)%nat ∧
  rows "genome" = (rows0 "genome" + 1)%nat ∧
  ∃ pre vs post, trace run = pre ++ feature_batch vs :: post ∧ Next ∈ post.
Proof.
  intros Hs Hq Hb run rows rows0.
  assert (Hlen : length (features record_a) = 3%nat).
  { apply Permutation_length in Hq. by rewrite length_fmap in Hq. }
  assert (Hsum : sum_list (length ∘ qualifiers <$> features record_a) = 2%nat).
  { by rewrite Hq. }
  pose proof (convert_spec rd gbk_path 2 st) as H.
  apply wp_run_of in H. fold run in H. unfold convert_post in H. rewrite Hs in H.
  destruct H as (Hr & Ht & _). cbn in Hr. rewrite Hr in Ht.
  split; [done|].
  subst rows rows0. cbv beta. rewrite !Ht. cbn [stream_records loaded].
  rewrite Hb. unfold flattened, only. simpl.
  rewrite !length_app, ?app_nil_r, length_qualifier_rows, length_feature_rows, Hsum, Hlen.
  split_and!; [done..|].
  apply (midstream_flush rd gbk_path 2 st record_a _ Hs). lia.
Qed.

Lemma two_record_scenario_witness :
  iter_gb_records sample_reader "sample.gbk" = Yield record_A (Yield record_B StopIteration) ∧
  length ∘ qualifiers <$> features record_A ≡ₚ [2; 0; 0]%nat ∧
  features record_B = [] ∧
  let run := convert_gbk_to_sqlite sample_reader "sample.gbk" 2 empty_state in
  let rows t := length (table_rows (database (final run)) t) in
  let rows0 t := length (table_rows (database empty_state) t) in
  outcome run = Ok tt ∧
  rows "qualifier" = (rows0 "qualifier" + 2)%nat ∧
  rows "feature" = (rows0 "feature" + 3)%nat ∧
  rows "record" = (rows0 "record" + 2)%nat ∧
  rows "genome" = (rows0 "genome" + 1)%nat ∧
  ∃ pre vs post, trace run = pre ++ feature_batch vs :: post ∧ Next ∈ post.
Proof.
  split_and!; [reflexivity..|].
  apply (two_record_scenario sample_reader "sample.gbk" empty_state record_A record_B);
    reflexivity.
Defined.

(** ** The shape of a conversion *)

Lemma convert_run rd gbk_path batch_size st :
  let gid := next_id (table_rows (database st) "genome") in
  let loop := for_records batch_size (genome_of gbk_path st)
                (iter_gb_records rd gbk_path) (loop_entry gbk_path st) in
  let rest := insert_remaining (final loop) in
  convert_gbk_to_sqlite rd gbk_path batch_size st =
  match outcome loop with
  | Ok _ =>
    (Ok tt, final rest,
     LogInfo (log_line gbk_path batch_size) :: Insert "genome" (genome_row gid gbk_path)
     :: trace loop ++ trace rest)
  | Err e =>
    (Err e, final loop,
     LogInfo (log_line gbk_path batch_size) :: Insert "genome" (genome_row gid gbk_path)
     :: trace loop)
  end.
Proof.
  cbv zeta. unfold convert_gbk_to_sqlite. rewrite emit_seq_run.
  unfold mbind at 1, M_bind at 1, bind at 1. rewrite Genome_create_run. cbv zeta.
  unfold mbind at 1, M_bind at 1, bind at 1. cbn [set_locals].
  unfold mbind at 1, M_bind at 1, bind at 1.
  change {| database := _; locals := _ |} with (loop_entry gbk_path st).
  change {| genome_id := _; genome_gbk_path := _ |} with (genome_of gbk_path st).
  destruct (for_records batch_size (genome_of gbk_path st) (iter_gb_records rd gbk_path)
              (loop_entry gbk_path st)) as [[[[]|e] st2] tr2];
    unfold outcome, final, trace; cbn [fst snd]; [|done].
  rewrite insert_remaining_run. reflexivity.
Qed.

(** ** Invariants carried through the loops *)

Section loop_invariant.

Context (R : State → State → list Event → Prop) (batch_size : Z).
Hypothesis R_refl : ∀ st, R st st [].
Hypothesis R_trans : ∀ st1 st2 st3 tr1 tr2,
  R st1 st2 tr1 → R st2 st3 tr2 → R st1 st3 (tr1 ++ tr2).
Hypothesis R_next : ∀ st, R st st [Next].
Hypothesis R_warn : ∀ st m, R st st [Warn m].
Hypothesis R_record : ∀ st r objs,
  R st {| database := append_rows "record" [r] (database st);
          locals := set_record_objs objs (locals st) |} [Insert "record" r].
Hypothesis R_feature : ∀ genome record_obj idx s e v,
  respects R (append_feature batch_size (feature_tuple genome record_obj idx s e v)).
Hypothesis R_qualifier : ∀ genome record_obj idx q,
  respects R (append_qualifier batch_size (qualifier_tuple genome record_obj idx q)).

Lemma respects_bind {A B} (m : M A) (k : A → M B) :
  respects R m → (∀ a, respects R (k a)) → respects R (m ≫= k).
Proof.
  intros Hm Hk st. apply wp_bind. eapply wp_mono; [apply Hm|].
  intros [a|e] st1 tr1 H1; [|done].
  eapply wp_mono; [apply Hk|]. intros r st2 tr2 H2. by eapply R_trans.
Qed.

Lemma respects_ret {A} (a : A) : respects R (ret a).
Proof. intros st. apply R_refl. Qed.

Lemma respects_for_qualifiers genome record_obj idx qs :
  respects R (for_qualifiers batch_size genome record_obj idx qs).
Proof.
  induction qs as [|q qs IH]; cbn [for_qualifiers]; [apply respects_ret|].
  apply respects_bind; [apply R_qualifier|done].
Qed.

Lemma respects_for_features genome record_obj idx fs :
  respects R (for_features batch_size genome record_obj idx fs).
Proof.
  revert idx. induction fs as [|f fs IH]; intros idx; cbn [for_features];
    [apply respects_ret|].
  apply respects_bind.
  - intros st. unfold wp. rewrite location_fields_run.
    destruct (location f); [apply R_refl|apply R_warn].
  - intros [[s e] v]. apply respects_bind; [apply R_feature|].
    intros _. apply respects_bind; [apply respects_for_qualifiers|done].
Qed.

Lemma respects_for_records genome s :
  respects R (for_records batch_size genome s).
Proof.
  induction s as [|e|r rest IH]; cbn [for_records]; intros st.
  - apply R_next.
  - apply R_next.
  - apply wp_bind. eapply wp_run; [reflexivity|].
    apply wp_bind. eapply wp_run; [apply Record_create_run|]. cbv zeta.
    apply wp_bind. eapply wp_run; [reflexivity|].
    apply wp_bind. eapply wp_run; [reflexivity|]. proj.
    apply wp_bind. eapply wp_mono; [apply respects_for_features|].
    intros [[]|e] st2 tr2 H2.
    + eapply wp_mono; [apply IH|]. intros r3 st3 tr3 H3.
      apply (R_trans _ _ _ [Next] _ (R_next st)).
      eapply (R_trans _ _ _ [_]); [apply R_record|].
      cbn [app]. exact (R_trans _ _ _ _ _ H2 H3).
    + apply (R_trans _ _ _ [Next] _ (R_next st)).
      eapply (R_trans _ _ _ [_]); [apply R_record|]. cbn [app]. exact H2.
Qed.

End loop_invariant.

(** ** C10: a batch size that is not positive *)

Lemma length_bind_qualifiers (fs : list Feature) :
  length (fs ≫= qualifiers) = sum_list (length ∘ qualifiers <$> fs).
Proof.
  induction fs as [|f fs IH]; [done|].
  rewrite bind_cons, length_app, IH. done.
Qed.

Lemma length_loaded_feature genome base rs :
  length (loaded genome base rs "feature") = length (rs ≫= features).
Proof.
  revert base. induction rs as [|r rs IH]; intros base; [done|].
  cbn [loaded]. rewrite bind_cons, !length_app, IH.
  unfold flattened, only. repeat case_decide; try done.
  rewrite length_app, length_feature_rows. simpl. lia.
Qed.

Lemma length_loaded_qualifier genome base rs :
  length (loaded genome base rs "qualifier") = length ((rs ≫= features) ≫= qualifiers).
Proof.
  revert base. induction rs as [|r rs IH]; intros base; [done|].
  cbn [loaded]. rewrite bind_cons, bind_app, !length_app, IH.
  unfold flattened, only. repeat case_decide; try done.
  rewrite length_app, length_qualifier_rows, (length_bind_qualifiers (features r)).
  simpl. lia.
Qed.

Lemma pending_flushed l t : flushed l → pending l t = [].
Proof. intros [Hf Hq]. unfold pending. rewrite Hf, Hq. by repeat case_decide. Qed.

Lemma flushes_each_refl st : flushes_each st st [].
Proof. intros H. split; [done|]. simpl. lia. Qed.

Lemma flushes_each_trans st1 st2 st3 tr1 tr2 :
  flushes_each st1 st2 tr1 → flushes_each st2 st3 tr2 →
  flushes_each st1 st3 (tr1 ++ tr2).
Proof.
  intros H1 H2 Hst. destruct (H1 Hst) as [Hst2 E1]. destruct (H2 Hst2) as [Hst3 E2].
  split; [done|]. rewrite batches_app, length_app. lia.
Qed.

Lemma flushes_each_quiet st d l tr :
  (flushed (locals st) → flushed l) →
  table_rows d "feature" = table_rows (database st) "feature" →
  table_rows d "qualifier" = table_rows (database st) "qualifier" →
  batches tr = [] →
  flushes_each st {| database := d; locals := l |} tr.
Proof.
  intros Hl Hf Hq Htr Hst. split; [by apply Hl|]. proj. rewrite Hf, Hq, Htr. simpl. lia.
Qed.

Section nonpositive_batch_size.

Context (batch_size : Z) (Hb : (batch_size ≤ 0)%Z).

(** The length check of line 96 always passes: the buffer goes out with the
    tuple just appended and is cleared. *)
Lemma append_feature_flushes v st :
  append_feature batch_size v st =
  (Ok tt,
   {| database :=
        append_rows "feature" (zip feature_columns <$> (feature_tuples (locals st) ++ [v]))
          (database st);
      locals := set_feature_tuples [] (locals st) |},
   [ExecuteMany (insert_sql "feature" feature_columns) (feature_tuples (locals st) ++ [v]);
    Commit]).
Proof.
  rewrite append_feature_run. cbv zeta.
  rewrite bool_decide_eq_true_2; [done|]. rewrite length_app; simpl; lia.
Qed.

(** The same for the check of line 111. *)
Lemma append_qualifier_flushes v st :
  append_qualifier batch_size v st =
  (Ok tt,
   {| database :=
        append_rows "qualifier"
          (zip qualifier_columns <$> (qualifier_tuples (locals st) ++ [v])) (database st);
      locals := set_qualifier_tuples [] (locals st) |},
   [ExecuteMany (insert_sql "qualifier" qualifier_columns)
      (qualifier_tuples (locals st) ++ [v]);
    Commit]).
Proof.
  rewrite append_qualifier_run. cbv zeta.
  rewrite bool_decide_eq_true_2; [done|]. rewrite length_app; simpl; lia.
Qed.

Lemma append_feature_nonpositive v st :
  append_feature batch_size v st = append_feature 1 v st.
Proof.
  rewrite !append_feature_run. cbv zeta.
  rewrite !bool_decide_eq_true_2; [done|..]; rewrite length_app; simpl; lia.
Qed.

Lemma append_qualifier_nonpositive v st :
  append_qualifier batch_size v st = append_qualifier 1 v st.
Proof.
  rewrite !append_qualifier_run. cbv zeta.
  rewrite !bool_decide_eq_true_2; [done|..]; rewrite length_app; simpl; lia.
Qed.

Lemma for_qualifiers_nonpositive genome record_obj idx qs st :
  for_qualifiers batch_size genome record_obj idx qs st =
  for_qualifiers 1 genome record_obj idx qs st.
Proof.
  revert st. induction qs as [|q qs IH]; intros st; [done|].
  cbn [for_qualifiers]. apply bind_ext; [apply append_qualifier_nonpositive|done].
Qed.

Lemma for_features_nonpositive genome record_obj idx fs st :
  for_features batch_size genome record_obj idx fs st =
  for_features 1 genome record_obj idx fs st.
Proof.
  revert idx st. induction fs as [|f fs IH]; intros idx st; [done|].
  cbn [for_features]. apply bind_ext; [done|]. intros [[s e] v] st1.
  apply bind_ext; [apply append_feature_nonpositive|]. intros _ st2.
  apply bind_ext; [apply for_qualifiers_nonpositive|done].
Qed.

Lemma for_records_nonpositive genome s st :
  for_records batch_size genome s st = for_records 1 genome s st.
Proof.
  revert st. induction s as [|e|r rest IH]; intros st; [done..|].
  cbn [for_records]. apply bind_ext; [done|]. intros _ st1.
  apply bind_ext; [done|]. intros record_obj st2.
  apply bind_ext; [done|]. intros l st3.
  apply bind_ext; [done|]. intros _ st4.
  apply bind_ext; [apply for_features_nonpositive|done].
Qed.

(** Through the three loops: the buffers, empty at the start, are empty after
    each step, and each row that reached a table went out in a batch of its
    own. *)
Lemma flushes_each_for_records genome s :
  respects flushes_each (for_records batch_size genome s).
Proof.
  apply respects_for_records.
  - apply flushes_each_refl.
  - apply flushes_each_trans.
  - intros [d l]. by apply flushes_each_quiet.
  - intros [d l] m. by apply flushes_each_quiet.
  - intros [d l] r objs. apply flushes_each_quiet; proj; try done;
      rewrite table_rows_append_rows; unfold only; simpl; by rewrite app_nil_r.
  - intros genome' record_obj idx s' e v st. unfold wp. rewrite append_feature_flushes.
    intros [Hf Hq]. rewrite Hf. split; [by split|]. proj.
    rewrite !table_rows_append_rows. unfold only. simpl.
    rewrite !length_app. simpl. lia.
  - intros genome' record_obj idx q st. unfold wp. rewrite append_qualifier_flushes.
    intros [Hf Hq]. rewrite Hq. split; [by split|]. proj.
    rewrite !table_rows_append_rows. unfold only. simpl.
    rewrite !length_app. simpl. lia.
Qed.

(** The whole conversion: nothing is left in the buffers, however it ends,
    and the batches are as many as the rows the two tables gained. *)
Lemma convert_flushes_each rd gbk_path st :
  let run := convert_gbk_to_sqlite rd gbk_path batch_size st in
  flushed (locals (final run)) ∧
  length (table_rows (database (final run)) "feature")
  + length (table_rows (database (final run)) "qualifier")
  = length (table_rows (database st) "feature")
    + length (table_rows (database st) "qualifier") + length (batches (trace run)).
Proof.
  intros run. subst run. rewrite convert_run. cbv zeta.
  pose proof (flushes_each_for_records (genome_of gbk_path st) (iter_gb_records rd gbk_path)
                (loop_entry gbk_path st)) as Hloop.
  unfold wp in Hloop.
  destruct (for_records batch_size (genome_of gbk_path st) (iter_gb_records rd gbk_path)
              (loop_entry gbk_path st)) as [[r st2] tr2].
  destruct (Hloop ltac:(by split)) as [[Hf Hq] Hcount].
  unfold loop_entry in Hcount. proj.
  rewrite !table_rows_append_rows in Hcount. unfold only in Hcount. simpl in Hcount.
  rewrite !app_nil_r in Hcount.
  unfold outcome, final, trace. cbn [fst snd].
  destruct r as [[]|e]; cbn [fst snd].
  - rewrite insert_remaining_run. cbn [fst snd]. rewrite Hf, Hq. cbn [flush_db flush_events].
    proj. split; [by split|]. cbn [app]. rewrite app_nil_r.
    change (batches (LogInfo ?m :: Insert ?t ?r :: ?l)) with (batches l). exact Hcount.
  - split; [by split|].
    change (batches (LogInfo ?m :: Insert ?t ?r :: ?l)) with (batches l). exact Hcount.
Qed.

End nonpositive_batch_size.

(** C10.  With a batch size of zero or less the length check after an append
    always passes: each append step sends the buffer, with the tuple just
    appended, as one batch and clears it.  So the buffers, empty when the loop
    is entered, are empty after every step and when the conversion ends; every
    batch holds a single tuple; there are as many batches as features and
    qualifiers in the records read; and every one of them is stored, also
    when the reader then raises.  After its log line the conversion does
    exactly what it does with batch size 1: the same actions in the same
    order, the same outcome, which is the reader's (the batch size adds no
    error of its own), and the same final database. *)
Theorem nonpositive_batch_size_as_one rd gbk_path batch_size st :
  (batch_size ≤ 0)%Z →
  let run := convert_gbk_to_sqlite rd gbk_path batch_size st in
  let run1 := convert_gbk_to_sqlite rd gbk_path 1 st in
  let rs := stream_records (iter_gb_records rd gbk_path) in
  outcome run = outcome run1 ∧
  outcome run = stream_result (iter_gb_records rd gbk_path) ∧
  final run = final run1 ∧
  (∀ t, table_rows (database (final run)) t = table_rows (database (final run1)) t) ∧
  (∃ tr, trace run = LogInfo (log_line gbk_path batch_size) :: tr ∧
         trace run1 = LogInfo (log_line gbk_path 1) :: tr) ∧
  Forall (λ b, length b.2 = 1) (batches (trace run)) ∧
  (∀ v st0,
     append_feature batch_size v st0 =
     (Ok tt,
      {| database :=
           append_rows "feature"
             (zip feature_columns <$> (feature_tuples (locals st0) ++ [v])) (database st0);
         locals := set_feature_tuples [] (locals st0) |},
      [ExecuteMany (insert_sql "feature" feature_columns)
         (feature_tuples (locals st0) ++ [v]);
       Commit])) ∧
  (∀ v st0,
     append_qualifier batch_size v st0 =
     (Ok tt,
      {| database :=
           append_rows "qualifier"
             (zip qualifier_columns <$> (qualifier_tuples (locals st0) ++ [v]))
             (database st0);
         locals := set_qualifier_tuples [] (locals st0) |},
      [ExecuteMany (insert_sql "qualifier" qualifier_columns)
         (qualifier_tuples (locals st0) ++ [v]);
       Commit])) ∧
  feature_tuples (locals (final run)) = [] ∧
  qualifier_tuples (locals (final run)) = [] ∧
  length (batches (trace run))
  = length (rs ≫= features) + length ((rs ≫= features) ≫= qualifiers) ∧
  length (table_rows (database (final run)) "feature")
  = length (table_rows (database st) "feature") + length (rs ≫= features) ∧
  length (table_rows (database (final run)) "qualifier")
  = length (table_rows (database st) "qualifier")
    + length ((rs ≫= features) ≫= qualifiers).
Proof.
  intros Hb run run1 rs.
  pose proof (convert_bounded 1 ltac:(lia) rd gbk_path st) as Hone. fold run1 in Hone.
  pose proof (convert_spec rd gbk_path 1 st) as Hspec.
  apply wp_run_of in Hspec. fold run1 in Hspec. destruct Hspec as (Hres & _).
  pose proof (convert_flushes_each batch_size Hb rd gbk_path st) as Hflush.
  cbv zeta in Hflush. fold run in Hflush. destruct Hflush as ([Hf Hq] & Hcount).
  assert (Hstored : ∀ t, table_rows (database (final run)) t =
            table_rows (database st) t
            ++ only "genome" [genome_row (next_id (table_rows (database st) "genome"))
                                gbk_path] t
            ++ loaded (genome_of gbk_path st)
                 (next_id (table_rows (database st) "record")) rs t).
  { intros t. pose proof (convert_spec rd gbk_path batch_size st) as Hs.
    apply wp_run_of in Hs. fold run in Hs. destruct Hs as (_ & Ht & _).
    specialize (Ht t). cbv zeta in Ht.
    assert (Hc : contents (final run) t = table_rows (database (final run)) t).
    { unfold contents. by rewrite (pending_flushed _ t (conj Hf Hq)), app_nil_r. }
    rewrite Hc in Ht. destruct (outcome run); exact Ht. }
  assert (Hlf : length (table_rows (database (final run)) "feature")
                = length (table_rows (database st) "feature") + length (rs ≫= features)).
  { rewrite (Hstored "feature"), !length_app, length_loaded_feature.
    unfold only. simpl. lia. }
  assert (Hlq : length (table_rows (database (final run)) "qualifier")
                = length (table_rows (database st) "qualifier")
                  + length ((rs ≫= features) ≫= qualifiers)).
  { rewrite (Hstored "qualifier"), !length_app, length_loaded_qualifier.
    unfold only. simpl. lia. }
  assert (Hrun : ∃ r st' tr, run = (r, st', LogInfo (log_line gbk_path batch_size) :: tr)
                             ∧ run1 = (r, st', LogInfo (log_line gbk_path 1) :: tr)).
  { pose (K := λ b, Genome_create gbk_path ≫= λ genome,
                 set_locals {| record_objs := []; feature_tuples := [];
                               qualifier_tuples := [] |} ;;
                 for_records b genome (iter_gb_records rd gbk_path) ;;
                 insert_remaining).
    assert (Hshape : ∀ b, convert_gbk_to_sqlite rd gbk_path b st =
                          let '(r, st', tr) := K b st in
                          (r, st', LogInfo (log_line gbk_path b) :: tr))
      by (intros b; apply emit_seq_run).
    assert (HK : K batch_size st = K 1%Z st).
    { apply bind_ext; [done|]. intros genome st1.
      apply bind_ext; [done|]. intros _ st2.
      apply bind_ext; [by apply for_records_nonpositive|done]. }
    subst run run1. rewrite !Hshape, HK.
    destruct (K 1%Z st) as [[r st'] tr]. by eexists _, _, _. }
  destruct Hrun as (r & st' & tr & Hrun & Hrun1).
  unfold bounded in Hone. rewrite Hrun, Hrun1 in *.
  unfold outcome, final, trace in *. cbn [fst snd] in *.
  split_and!; [done..|by eexists| |by apply append_feature_flushes
               |by apply append_qualifier_flushes|done|done|lia|done|done].
  change (batches (LogInfo ?m :: tr)) with (batches tr) in *.
  eapply Forall_impl; [exact Hone|]. intros [sql vs] ?. simpl in *. lia.
Qed.

Lemma nonpositive_batch_size_as_one_witness :
  (0 ≤ 0)%Z ∧
  let run := convert_gbk_to_sqlite sample_reader "sample.gbk" 0 empty_state in
  let run1 := convert_gbk_to_sqlite sample_reader "sample.gbk" 1 empty_state in
  outcome run = outcome run1 ∧
  final run = final run1 ∧
  Forall (λ b, length b.2 = 1) (batches (trace run)) ∧
  feature_tuples (locals (final run)) = [] ∧
  qualifier_tuples (locals (final run)) = [] ∧
  length (batches (trace run)) = 5 ∧
  length (table_rows (database (final run)) "feature") = 3 ∧
  length (table_rows (database (final run)) "qualifier") = 2.
Proof.
  split; [lia|]. cbv zeta.
  destruct (nonpositive_batch_size_as_one sample_reader "sample.gbk" 0 empty_state
              ltac:(lia))
    as (H1 & _ & H3 & _ & _ & H6 & _ & _ & H9 & H10 & H11 & H12 & H13).
  split_and!; [exact H1|exact H3|exact H6|exact H9|exact H10|exact H11|exact H12|exact H13].
Defined.

(** * Further properties *)

(** ** X5: what is stored stays *)

Lemma keeps_rows_refl st : keeps_rows st st.
Proof. by split. Qed.

Lemma keeps_rows_trans st1 st2 st3 :
  keeps_rows st1 st2 → keeps_rows st2 st3 → keeps_rows st1 st3.
Proof.
  intros [H1 I1] [H2 I2]. split; [|congruence].
  intros t. etrans; [apply H1|apply H2].
Qed.

Lemma keeps_rows_append t rs d l l' :
  keeps_rows {| database := d; locals := l |}
             {| database := append_rows t rs d; locals := l' |}.
Proof.
  split; [|done]. intros t'. proj. rewrite table_rows_append_rows.
  by apply prefix_app_r.
Qed.

Lemma keeps_rows_locals d l l' :
  keeps_rows {| database := d; locals := l |} {| database := d; locals := l' |}.
Proof. by split. Qed.

Lemma keeps_rows_append_feature batch_size v :
  respects (λ st st' _, keeps_rows st st') (append_feature batch_size v).
Proof.
  intros [d l]. unfold wp. rewrite append_feature_run. cbv zeta.
  case_bool_decide; [apply keeps_rows_append|apply keeps_rows_locals].
Qed.

Lemma keeps_rows_append_qualifier batch_size v :
  respects (λ st st' _, keeps_rows st st') (append_qualifier batch_size v).
Proof.
  intros [d l]. unfold wp. rewrite append_qualifier_run. cbv zeta.
  case_bool_decide; [apply keeps_rows_append|apply keeps_rows_locals].
Qed.

Lemma keeps_rows_for_records batch_size genome s :
  respects (λ st st' _, keeps_rows st st') (for_records batch_size genome s).
Proof.
  apply respects_for_records.
  - apply keeps_rows_refl.
  - intros st1 st2 st3 _ _. apply keeps_rows_trans.
  - apply keeps_rows_refl.
  - intros st _. apply keeps_rows_refl.
  - intros [d l] r objs. apply keeps_rows_append.
  - intros. apply keeps_rows_append_feature.
  - intros. apply keeps_rows_append_qualifier.
Qed.

Lemma keeps_rows_insert_remaining st : keeps_rows st (final (insert_remaining st)).
Proof.
  rewrite insert_remaining_run. unfold final. cbn [fst snd].
  split; [|by destruct (feature_tuples (locals st)), (qualifier_tuples (locals st))].
  intros t. proj. rewrite !table_rows_flush_db.
  rewrite <- app_assoc. by apply prefix_app_r.
Qed.

Lemma loaded_elsewhere genome base rs t :
  t ∉ loaded_tables → loaded genome base rs t = [].
Proof.
  intros Ht. revert base. induction rs as [|r rs IH]; intros base; [done|].
  cbn [loaded]. rewrite IH. unfold flattened, only.
  repeat case_decide; subst; try done; exfalso; apply Ht; unfold loaded_tables;
    set_solver.
Qed.

(** X5.  A conversion, however it ends, never removes, reorders or alters a
    stored row: every table keeps the rows it had as a prefix of the rows it
    has afterwards.  It writes to the genome, record, feature and qualifier
    tables only, and it leaves the index catalogue as it was. *)
Theorem conversion_keeps_stored_rows rd gbk_path batch_size st :
  let run := convert_gbk_to_sqlite rd gbk_path batch_size st in
  (∀ t, table_rows (database st) t `prefix_of` table_rows (database (final run)) t) ∧
  (∀ t, t ∉ loaded_tables →
        table_rows (database (final run)) t = table_rows (database st) t) ∧
  indexes (database (final run)) = indexes (database st).
Proof.
  intros run.
  pose proof (convert_spec rd gbk_path batch_size st) as Hspec.
  apply wp_run_of in Hspec. fold run in Hspec.
  destruct Hspec as (_ & Ht & _ & Hi & _).
  split_and!; [|intros t Hnot|exact Hi].
  - assert (Hloop := keeps_rows_for_records batch_size (genome_of gbk_path st)
                       (iter_gb_records rd gbk_path) (loop_entry gbk_path st)).
    apply wp_run_of in Hloop.
    assert (Hentry : keeps_rows st (loop_entry gbk_path st)).
    { destruct st as [d l]. apply keeps_rows_append. }
    subst run. rewrite convert_run. cbv zeta.
    destruct (outcome (for_records _ _ _ _)); unfold final at 1; cbn [fst snd].
    + eapply keeps_rows_trans; [|apply keeps_rows_insert_remaining].
      by eapply keeps_rows_trans.
    + by eapply keeps_rows_trans.
  - specialize (Ht t). rewrite loaded_elsewhere in Ht by done.
    assert (Hg : t ≠ "genome") by (intros ->; apply Hnot; unfold loaded_tables; set_solver).
    assert (Hf : t ≠ "feature") by (intros ->; apply Hnot; unfold loaded_tables; set_solver).
    assert (Hq : t ≠ "qualifier")
      by (intros ->; apply Hnot; unfold loaded_tables; set_solver).
    unfold only in Ht. rewrite decide_False in Ht by done. rewrite !app_nil_r in Ht.
    destruct (outcome run); [done|].
    unfold contents, pending in Ht. rewrite !decide_False, app_nil_r in Ht by done. done.
Qed.

(** ** X7: batches are full until the input ends *)

Lemma full_batches_app batch_size tr1 tr2 :
  full_batches batch_size tr1 → full_batches batch_size tr2 →
  full_batches batch_size (tr1 ++ tr2).
Proof. unfold full_batches. rewrite batches_app. apply Forall_app_2. Qed.

Lemma full_batches_for_records batch_size genome s :
  respects (λ st st' tr, below batch_size (locals st) →
              below batch_size (locals st') ∧ full_batches batch_size tr)
           (for_records batch_size genome s).
Proof.
  apply respects_for_records.
  - intros st H. split; [done|constructor].
  - intros st1 st2 st3 tr1 tr2 H1 H2 H. destruct (H1 H) as [H1' F1].
    destruct (H2 H1') as [H2' F2]. split; [done|by apply full_batches_app].
  - intros st H. split; [done|constructor].
  - intros st m H. split; [done|constructor].
  - intros st r objs H. split; [done|constructor].
  - intros genome' record_obj idx s' e v st. unfold wp.
    rewrite append_feature_run. cbv zeta. rewrite length_app. cbn [length].
    case_bool_decide; intros [Hf Hq]; unfold below, full_batches; proj;
      cbn [length batches omap].
    + split; [split; [lia|done]|].
      repeat constructor. cbn [snd]. rewrite length_app. cbn [length]. lia.
    + split; [split; [rewrite length_app; cbn [length]; lia|done]|constructor].
  - intros genome' record_obj idx q st. unfold wp.
    rewrite append_qualifier_run. cbv zeta. rewrite length_app. cbn [length].
    case_bool_decide; intros [Hf Hq]; unfold below, full_batches; proj;
      cbn [length batches omap].
    + split; [split; [done|lia]|].
      repeat constructor. cbn [snd]. rewrite length_app. cbn [length]. lia.
    + split; [split; [done|rewrite length_app; cbn [length]; lia]|constructor].
Qed.

Lemma for_records_last_Next batch_size genome s st :
  last (trace (for_records batch_size genome s st)) = Some Next.
Proof.
  apply (wp_run_of _ _ (λ _ _ tr, last tr = Some Next)).
  revert st. induction s as [|e|r rest IH]; intros st; [done..|].
  cbn [for_records].
  apply wp_bind. eapply wp_run; [reflexivity|].
  apply wp_bind. eapply wp_run; [apply Record_create_run|]. cbv zeta.
  apply wp_bind. eapply wp_run; [reflexivity|].
  apply wp_bind. eapply wp_run; [reflexivity|].
  apply wp_bind. eapply wp_mono; [apply for_features_grows|].
  intros ? st2 tr2 (-> & _). eapply wp_mono; [apply IH|].
  intros r3 st3 tr3 H3. cbn [app]. by rewrite !last_cons, last_app, H3.
Qed.

Lemma below_entry batch_size gbk_path st :
  (1 ≤ batch_size)%Z → below batch_size (locals (loop_entry gbk_path st)).
Proof. intros H. split; simpl; lia. Qed.

(** X7.  With a batch size of at least 1, every batch sent while the input
    is still being read, that is up to the last resumption of the generator,
    holds exactly [batch_size] tuples.  Only what follows, the at most two
    batches of the end of the input, is smaller, and never empty. *)
Theorem batches_full_until_input_ends rd gbk_path batch_size st :
  (1 ≤ batch_size)%Z →
  let run := convert_gbk_to_sqlite rd gbk_path batch_size st in
  ∃ during after,
    trace run = during ++ after ∧
    last during = Some Next ∧ (Next ∉ after) ∧
    full_batches batch_size during ∧
    (length (batches after) ≤ 2)%nat ∧
    Forall (λ b, (0 < Z.of_nat (length b.2) < batch_size)%Z) (batches after).
Proof.
  intros Hb run. subst run. rewrite convert_run. cbv zeta.
  set (loop := for_records batch_size (genome_of gbk_path st)
                 (iter_gb_records rd gbk_path) (loop_entry gbk_path st)).
  pose proof (full_batches_for_records batch_size (genome_of gbk_path st)
                (iter_gb_records rd gbk_path) (loop_entry gbk_path st)) as Hloop.
  apply wp_run_of in Hloop. fold loop in Hloop.
  destruct (Hloop (below_entry _ _ _ Hb)) as [[Hf Hq] Hfull].
  pose proof (for_records_last_Next batch_size (genome_of gbk_path st)
                (iter_gb_records rd gbk_path) (loop_entry gbk_path st)) as Hlast.
  fold loop in Hlast.
  assert (Hduring : ∀ e1 e2, batches [e1; e2] = [] →
            last (e1 :: e2 :: trace loop) = Some Next ∧
            full_batches batch_size (e1 :: e2 :: trace loop)).
  { intros e1 e2 He. split.
    - change (e1 :: e2 :: trace loop) with ([e1; e2] ++ trace loop).
      by rewrite last_app, Hlast.
    - change (e1 :: e2 :: trace loop) with ([e1; e2] ++ trace loop).
      apply full_batches_app; [|done]. unfold full_batches. rewrite He. constructor. }
  destruct (outcome loop).
  - eexists (_ :: _ :: trace loop), (trace (insert_remaining (final loop))).
    unfold trace at 1. cbn [snd].
    destruct (Hduring (LogInfo (log_line gbk_path batch_size))
                (Insert "genome" (genome_row (next_id (table_rows (database st) "genome"))
                   gbk_path)) eq_refl) as [H1 H2].
    split_and!; [done|exact H1| |exact H2| |].
    + rewrite insert_remaining_run. unfold trace. cbn [snd].
      destruct (feature_tuples (locals (final loop))),
               (qualifier_tuples (locals (final loop))); cbn;
        intros H; repeat (apply elem_of_cons in H as [H|H]; [discriminate|]);
        by apply elem_of_nil in H.
    + rewrite insert_remaining_run. unfold trace. cbn [snd].
      destruct (feature_tuples (locals (final loop))),
               (qualifier_tuples (locals (final loop))); cbn; lia.
    + rewrite insert_remaining_run. unfold trace. cbn [snd].
      destruct (feature_tuples (locals (final loop))) as [|f fs],
               (qualifier_tuples (locals (final loop))) as [|q qs];
        repeat constructor; cbn [snd length] in *; lia.
  - eexists (_ :: _ :: trace loop), [].
    unfold trace at 1. cbn [snd].
    destruct (Hduring (LogInfo (log_line gbk_path batch_size))
                (Insert "genome" (genome_row (next_id (table_rows (database st) "genome"))
                   gbk_path)) eq_refl) as [H1 H2].
    split_and!; [by rewrite app_nil_r|exact H1|apply not_elem_of_nil|exact H2|simpl; lia|
      constructor].
Qed.

Lemma batches_full_until_input_ends_witness :
  (1 ≤ 2)%Z ∧
  let run := convert_gbk_to_sqlite sample_reader "sample.gbk" 2 empty_state in
  ∃ during after,
    trace run = during ++ after ∧
    last during = Some Next ∧ (Next ∉ after) ∧
    full_batches 2 during ∧
    (length (batches after) ≤ 2)%nat ∧
    Forall (λ b, (0 < Z.of_nat (length b.2) < 2)%Z) (batches after).
Proof.
  split; [lia|].
  apply (batches_full_until_input_ends sample_reader "sample.gbk" 2 empty_state). lia.
Defined.

(** ** X8: one value per column *)

Lemma well_formed_for_records batch_size genome s :
  respects (λ st st' tr, well_formed_buffers (locals st) →
              well_formed_buffers (locals st') ∧ Forall well_formed_batch (batches tr))
           (for_records batch_size genome s).
Proof.
  apply respects_for_records.
  - intros st H. split; [done|constructor].
  - intros st1 st2 st3 tr1 tr2 H1 H2 H. destruct (H1 H) as [H1' F1].
    destruct (H2 H1') as [H2' F2]. split; [done|].
    rewrite batches_app. by apply Forall_app_2.
  - intros st H. split; [done|constructor].
  - intros st m H. split; [done|constructor].
  - intros st r objs H. split; [done|constructor].
  - intros genome' record_obj idx s' e v st. unfold wp.
    rewrite append_feature_run. cbv zeta.
    assert (Hv : ∀ l, well_formed_buffers l →
              Forall (λ v, length v = length feature_columns)
                (feature_tuples l ++ [feature_tuple genome' record_obj idx s' e v])).
    { intros l [Hf _]. apply Forall_app_2; [done|]. by repeat constructor. }
    case_bool_decide; intros Hwf; pose proof (Hv _ Hwf) as Hbuf; destruct Hwf as [Hf Hq];
      unfold well_formed_buffers; proj; cbn [batches omap].
    + split; [split; [constructor|done]|]. constructor; [by left|constructor].
    + split; [by split|constructor].
  - intros genome' record_obj idx q st. unfold wp.
    rewrite append_qualifier_run. cbv zeta.
    assert (Hv : ∀ l, well_formed_buffers l →
              Forall (λ v, length v = length qualifier_columns)
                (qualifier_tuples l ++ [qualifier_tuple genome' record_obj idx q])).
    { intros l [_ Hq]. apply Forall_app_2; [done|]. by repeat constructor. }
    case_bool_decide; intros Hwf; pose proof (Hv _ Hwf) as Hbuf; destruct Hwf as [Hf Hq];
      unfold well_formed_buffers; proj; cbn [batches omap].
    + split; [split; [done|constructor]|]. constructor; [by right|constructor].
    + split; [by split|constructor].
Qed.

(** X8.  Every batch a conversion sends goes to the feature or to the
    qualifier table with that table's insert statement, and each of its
    tuples has exactly one value per column of the statement: six for a
    feature, five for a qualifier. *)
Theorem batches_match_their_columns rd gbk_path batch_size st :
  Forall well_formed_batch
    (batches (trace (convert_gbk_to_sqlite rd gbk_path batch_size st))).
Proof.
  rewrite convert_run. cbv zeta.
  set (loop := for_records batch_size (genome_of gbk_path st)
                 (iter_gb_records rd gbk_path) (loop_entry gbk_path st)).
  pose proof (well_formed_for_records batch_size (genome_of gbk_path st)
                (iter_gb_records rd gbk_path) (loop_entry gbk_path st)) as Hloop.
  apply wp_run_of in Hloop. fold loop in Hloop.
  assert (Hentry : well_formed_buffers (locals (loop_entry gbk_path st)))
    by (split; constructor).
  destruct (Hloop Hentry) as [[Hf Hq] Hb].
  destruct (outcome loop); unfold trace at 1; cbn [snd];
    change (batches (LogInfo ?m :: Insert ?t ?r :: ?l)) with (batches l); [|done].
  rewrite batches_app. apply Forall_app_2; [done|].
  rewrite insert_remaining_run. unfold trace. cbn [snd].
  destruct (feature_tuples (locals (final loop))) as [|f fs],
           (qualifier_tuples (locals (final loop))) as [|q qs];
    cbn [flush_events app]; unfold batches; cbn [omap list_omap];
    repeat (constructor; [first [by left|by right]|]); constructor.
Qed.

(** ** X9: what an abort leaves out *)

Lemma length_pending batch_size l t :
  (0 < batch_size)%Z → below batch_size l →
  (Z.of_nat (length (pending l t)) < batch_size)%Z.
Proof.
  intros Hb [Hf Hq]. unfold pending.
  repeat case_decide; rewrite ?length_fmap; [exact Hf|exact Hq|simpl; lia].
Qed.

Lemma below_after_abort rd gbk_path batch_size st :
  (1 ≤ batch_size)%Z →
  let run := convert_gbk_to_sqlite rd gbk_path batch_size st in
  match outcome run with
  | Ok _ => True
  | Err _ => below batch_size (locals (final run))
  end.
Proof.
  intros Hb run. subst run. rewrite convert_run. cbv zeta.
  pose proof (preserves_for_records batch_size ltac:(lia) (genome_of gbk_path st)
                (iter_gb_records rd gbk_path) (loop_entry gbk_path st)
                (below_entry _ _ _ Hb)) as Hloop.
  apply wp_run_of in Hloop.
  destruct (outcome (for_records _ _ _ _)); unfold outcome, final; cbn [fst snd]; [done|].
  apply Hloop.
Qed.

(** X9.  With a batch size of at least 1, whatever way the conversion ends,
    each table holds a prefix of what the same conversion stores with batch
    size 1, short of fewer than [batch_size] rows: an abort by the reader
    loses only the rows still buffered, at most [batch_size - 1] per stream. *)
Theorem abort_loses_less_than_a_batch rd gbk_path batch_size st :
  (1 ≤ batch_size)%Z →
  let run := convert_gbk_to_sqlite rd gbk_path batch_size st in
  let run1 := convert_gbk_to_sqlite rd gbk_path 1 st in
  ∀ t, ∃ lost,
    table_rows (database (final run)) t ++ lost = table_rows (database (final run1)) t ∧
    (Z.of_nat (length lost) < batch_size)%Z.
Proof.
  intros Hb run run1 t.
  pose proof (convert_spec rd gbk_path batch_size st) as H.
  pose proof (convert_spec rd gbk_path 1 st) as H1.
  apply wp_run_of in H, H1. fold run in H. fold run1 in H1.
  destruct H as (Hr & Ht & _), H1 as (Hr1 & Ht1 & _).
  pose proof (below_after_abort rd gbk_path batch_size st Hb) as Hbelow.
  pose proof (below_after_abort rd gbk_path 1 st ltac:(lia)) as Hbelow1.
  cbv zeta in Hbelow, Hbelow1. fold run in Hbelow. fold run1 in Hbelow1.
  rewrite <- Hr1 in Hr. specialize (Ht t). specialize (Ht1 t).
  destruct (outcome run1) as [[]|e]; rewrite Hr in *.
  - exists []. rewrite app_nil_r, Ht, Ht1. split; [done|simpl; lia].
  - exists (pending (locals (final run)) t). split; [|by apply length_pending; [lia|]].
    pose proof (length_pending 1 _ t ltac:(lia) Hbelow1) as Hnone.
    destruct (pending (locals (final run1)) t) eqn:Hp; [|simpl in Hnone; lia].
    unfold contents in Ht, Ht1. rewrite Hp, app_nil_r in Ht1. by rewrite Ht, Ht1.
Qed.

Lemma abort_loses_less_than_a_batch_witness :
  (1 ≤ 5000)%Z ∧
  let run := convert_gbk_to_sqlite sample_reader "broken.gbk" 5000 empty_state in
  let run1 := convert_gbk_to_sqlite sample_reader "broken.gbk" 1 empty_state in
  ∃ lost,
    table_rows (database (final run)) "feature" ++ lost
    = table_rows (database (final run1)) "feature" ∧
    (Z.of_nat (length lost) < 5000)%Z.
Proof.
  split; [lia|].
  apply (abort_loses_less_than_a_batch sample_reader "broken.gbk" 5000 empty_state). lia.
Defined.

(** ** X1: one record row per record *)

Lemma loaded_record genome base rs :
  loaded genome base rs "record" =
  imap (λ i r, record_row genome (base + Z.of_nat i) r) rs.
Proof.
  revert base. induction rs as [|r rs IH]; intros base; [done|].
  cbn [loaded imap]. rewrite IH. unfold flattened, only. simpl.
  rewrite Z.add_0_r. f_equal. apply imap_ext. intros i x _. simpl. f_equal. lia.
Qed.

Lemma one_record_row_per_record_aux rd gbk_path batch_size st :
  let run := convert_gbk_to_sqlite rd gbk_path batch_size st in
  let base := next_id (table_rows (database st) "record") in
  table_rows (database (final run)) "record" =
  table_rows (database st) "record"
  ++ imap (λ i r, record_row (genome_of gbk_path st) (base + Z.of_nat i) r)
          (stream_records (iter_gb_records rd gbk_path)).
Proof.
  intros run base.
  pose proof (convert_spec rd gbk_path batch_size st) as H.
  apply wp_run_of in H. fold run in H. destruct H as (_ & Ht & _).
  specialize (Ht "record"). rewrite loaded_record in Ht.
  change (only "genome" _ "record") with (@nil row) in Ht.
  destruct (outcome run); [exact Ht|]. by rewrite contents_record in Ht.
Qed.

(** X1.  However the conversion ends, the record table has gained exactly one
    row per record the parser yielded, in file order and stored at once: the
    row of the [i]-th record carries the next free identifier plus [i], the
    identifier of this run's genome, and the record's name, definition,
    accession and version. *)
Theorem one_record_row_per_record rd gbk_path batch_size st :
  let run := convert_gbk_to_sqlite rd gbk_path batch_size st in
  let base := next_id (table_rows (database st) "record") in
  let gid := next_id (table_rows (database st) "genome") in
  table_rows (database (final run)) "record" =
  table_rows (database st) "record"
  ++ imap (λ i r, [("id", PyInt (base + Z.of_nat i)); ("genome", PyInt gid);
                   ("name", name r); ("definition", definition r);
                   ("accession", accession r); ("version", version r)])
          (stream_records (iter_gb_records rd gbk_path)).
Proof. apply one_record_row_per_record_aux. Qed.

(** ** X6: one warning per location without strand *)

Lemma strand_warnings_spec record_obj idx fs :
  length (strand_warnings record_obj idx fs) = length (filter lacks_strand fs) ∧
  Forall (λ m, ∃ j f, fs !! j = Some f ∧ lacks_strand f ∧
                      m = strand_warning (idx + j) record_obj)
         (strand_warnings record_obj idx fs).
Proof.
  revert idx. induction fs as [|f fs IH]; intros idx; [by split; [|constructor]|].
  destruct (IH (S idx)) as [Hlen Hall]. cbn [strand_warnings].
  rewrite filter_cons, length_app. split.
  - unfold lacks_strand at 1, strand_warnings_of. destruct (decide _) as [H|H];
      destruct (location f); try done; simpl; by rewrite Hlen.
  - apply Forall_app_2.
    + unfold strand_warnings_of. destruct (location f) eqn:Hloc; constructor; [|done].
      exists 0%nat, f. rewrite Nat.add_0_r. split_and!; [done| |done].
      unfold lacks_strand. by rewrite Hloc.
    + eapply Forall_impl; [exact Hall|]. intros m (j & f' & Hj & Hf & ->).
      exists (S j), f'. split_and!; [done..|]. f_equal. lia.
Qed.

Lemma all_strand_warnings_spec base rs :
  length (all_strand_warnings base rs) = length (filter lacks_strand (rs ≫= features)) ∧
  Forall (λ m, ∃ r idx f, r ∈ rs ∧ features r !! idx = Some f ∧ lacks_strand f ∧
                          m = "Feature " +:+ pretty idx +:+ " of record "
                              +:+ py_str (name r) +:+ " does not have strand attribute")
         (all_strand_warnings base rs).
Proof.
  revert base. induction rs as [|r rs IH]; intros base; [by split; [|constructor]|].
  destruct (IH (base + 1)%Z) as [Hlen Hall].
  destruct (strand_warnings_spec (record_obj_of base r) 0 (features r)) as [Hlen0 Hall0].
  cbn [all_strand_warnings]. rewrite bind_cons, filter_app, !length_app. split; [lia|].
  apply Forall_app_2.
  - eapply Forall_impl; [exact Hall0|]. intros m (j & f & Hj & Hf & ->).
    exists r, j, f. split_and!; [left|done..].
  - eapply Forall_impl; [exact Hall|]. intros m (r' & j & f & Hr & Hj & Hf & ->).
    exists r', j, f. split_and!; [by right|done..].
Qed.

(** X6.  Over a whole conversion, finished or not, there are exactly as many
    warnings as features without strand among the records the parser yielded,
    and each warning names the index of such a feature and the name of its
    record. *)
Theorem one_warning_per_strandless_feature rd gbk_path batch_size st :
  let run := convert_gbk_to_sqlite rd gbk_path batch_size st in
  let rs := stream_records (iter_gb_records rd gbk_path) in
  length (warnings (trace run)) = length (filter lacks_strand (rs ≫= features)) ∧
  Forall (λ m, ∃ r idx f, r ∈ rs ∧ features r !! idx = Some f ∧ lacks_strand f ∧
                          m = "Feature " +:+ pretty idx +:+ " of record "
                              +:+ py_str (name r) +:+ " does not have strand attribute")
         (warnings (trace run)).
Proof.
  intros run rs.
  pose proof (convert_spec rd gbk_path batch_size st) as H.
  apply wp_run_of in H. fold run in H. destruct H as (_ & _ & _ & _ & Hw & _).
  rewrite Hw. apply all_strand_warnings_spec.
Qed.

(** ** X13: an input without records *)

(** X13.  When the parser yields no record, the conversion ends normally
    after one resumption of the generator: it has stored the genome row,
    nothing else, and sent no batch. *)
Theorem conversion_of_no_records rd gbk_path batch_size st :
  iter_gb_records rd gbk_path = StopIteration →
  let gid := next_id (table_rows (database st) "genome") in
  convert_gbk_to_sqlite rd gbk_path batch_size st =
  (Ok tt,
   {| database := append_rows "genome" [genome_row gid gbk_path] (database st);
      locals := no_locals |},
   [LogInfo (log_line gbk_path batch_size); Insert "genome" (genome_row gid gbk_path);
    Next]).
Proof. intros Hs. unfold convert_gbk_to_sqlite. rewrite Hs. reflexivity. Qed.

Lemma conversion_of_no_records_witness :
  iter_gb_records
    {| TextIO := unit; gzip_open := λ _, inr tt; gb_io_iter_file := λ _, StopIteration;
       gb_io_iter_path := λ _, StopIteration |} "empty.gbk.gz" = StopIteration ∧
  let rd := {| TextIO := unit; gzip_open := λ _, inr tt;
               gb_io_iter_file := λ _, StopIteration;
               gb_io_iter_path := λ _, StopIteration |} in
  let gid := next_id (table_rows (database empty_state) "genome") in
  convert_gbk_to_sqlite rd "empty.gbk.gz" 5000 empty_state =
  (Ok tt,
   {| database := append_rows "genome" [genome_row gid "empty.gbk.gz"]
                    (database empty_state);
      locals := no_locals |},
   [LogInfo (log_line "empty.gbk.gz" 5000); Insert "genome" (genome_row gid "empty.gbk.gz");
    Next]).
Proof.
  split; [reflexivity|].
  apply (conversion_of_no_records _ "empty.gbk.gz" 5000 empty_state). reflexivity.
Defined.

(** ** X11: which paths go through gzip *)

Lemma string_length_append (p s : string) :
  String.length (p +:+ s) = (String.length p + String.length s)%nat.
Proof. induction p as [|c p IH]; simpl; [done|by rewrite IH]. Qed.

Lemma substring_whole (s : string) : String.substring 0 (String.length s) s = s.
Proof. induction s as [|c s IH]; simpl; [done|by rewrite IH]. Qed.

Lemma substring_after_prefix (p s : string) (k : nat) :
  String.substring (String.length p) k (p +:+ s) = String.substring 0 k s.
Proof. induction p as [|c p IH]; simpl; done. Qed.

Lemma string_split_at (s : string) (m : nat) :
  (m ≤ String.length s)%nat →
  s = String.substring 0 m s +:+ String.substring m (String.length s - m) s.
Proof.
  revert m. induction s as [|c s IH]; intros m Hm.
  - simpl in Hm. by replace m with 0%nat by lia.
  - destruct m as [|m].
    + simpl. by rewrite substring_whole.
    + cbn [String.length Nat.sub String.substring] in *.
      change (String c s = String c (String.substring 0 m s
                +:+ String.substring m (String.length s - m) s)).
      f_equal. apply IH. lia.
Qed.

Lemma endswith_spec (s suffix : string) :
  endswith s suffix = true ↔ ∃ p, s = p +:+ suffix.
Proof.
  unfold endswith. split.
  - intros [Hle Heq]%andb_prop. apply Nat.leb_le in Hle. apply String.eqb_eq in Heq.
    remember (String.length suffix) as k eqn:Hk.
    exists (String.substring 0 (String.length s - k) s). rewrite <- Heq.
    etrans; [apply (string_split_at s (String.length s - k)); lia|].
    do 2 f_equal. lia.
  - intros [p ->]. rewrite string_length_append. apply andb_true_intro. split.
    + apply Nat.leb_le. lia.
    + apply String.eqb_eq.
      replace (String.length p + String.length suffix - String.length suffix)%nat
        with (String.length p) by lia.
      by rewrite substring_after_prefix, substring_whole.
Qed.

(** X11.  A path that ends in [.gz], and only such a path, is opened with
    [gzip.open] and the text stream handed to the parser; when the open fails
    the generator raises that error without yielding a record.  Every other
    path, among them one that ends in [.GZ] or in [.gz.bak], goes to the
    parser as it is. *)
Theorem gz_paths_go_through_gzip rd :
  (∀ p, iter_gb_records rd (p +:+ ".gz") =
        match gzip_open rd (p +:+ ".gz") with
        | inl e => Raise e
        | inr file_obj => gb_io_iter_file rd file_obj
        end) ∧
  (∀ gbk_path, (∀ p, gbk_path ≠ p +:+ ".gz") →
        iter_gb_records rd gbk_path = gb_io_iter_path rd gbk_path).
Proof.
  split.
  - intros p. unfold iter_gb_records.
    by rewrite (proj2 (endswith_spec (p +:+ ".gz") ".gz")) by by exists p.
  - intros gbk_path Hnot. unfold iter_gb_records.
    destruct (endswith gbk_path ".gz") eqn:He; [|done].
    apply endswith_spec in He as [p ->]. by destruct (Hnot p).
Qed.

(** ** X2 and X3: rows and their parents *)

Lemma loaded_elsewhere_genome genome base rs : loaded genome base rs "genome" = [].
Proof.
  revert base. induction rs as [|r rs IH]; intros base; [done|].
  cbn [loaded]. by rewrite IH.
Qed.

Lemma loaded_qualifier_cons genome base r rs :
  loaded genome base (r :: rs) "qualifier" =
  qualifier_rows genome (record_obj_of base r) 0 (features r)
  ++ loaded genome (base + 1) rs "qualifier".
Proof. cbn [loaded]. unfold flattened, only. simpl. done. Qed.

Lemma qualifier_rows_have_features genome record_obj idx fs :
  Forall (λ q, ∃ f, f ∈ feature_rows genome record_obj idx fs ∧ same_feature q f)
         (qualifier_rows genome record_obj idx fs).
Proof.
  revert idx. induction fs as [|f fs IH]; intros idx; [constructor|].
  cbn [qualifier_rows feature_rows]. apply Forall_app_2.
  - apply Forall_fmap, Forall_forall. intros q _.
    exists (feature_row genome record_obj idx f). split; [left|].
    by split_and!.
  - eapply Forall_impl; [apply IH|]. intros q (f' & Hin & Hsame).
    exists f'. split; [by right|done].
Qed.

Lemma loaded_qualifiers_have_features genome base rs :
  Forall (λ q, ∃ f, f ∈ loaded genome base rs "feature" ∧ same_feature q f)
         (loaded genome base rs "qualifier").
Proof.
  revert base. induction rs as [|r rs IH]; intros base; [constructor|].
  rewrite loaded_qualifier_cons, loaded_feature_cons. apply Forall_app_2.
  - eapply Forall_impl; [apply qualifier_rows_have_features|].
    intros q (f & Hin & Hsame). exists f. split; [|done].
    apply elem_of_app. by left.
  - eapply Forall_impl; [apply IH|].
    intros q (f & Hin & Hsame). exists f. split; [|done].
    apply elem_of_app. by right.
Qed.

(** X2.  Take the feature rows and the qualifier rows a conversion has handed
    to the loader: those stored, and when the run was cut short those still
    buffered.  Every such qualifier row names a feature that has a row among
    them, with the same genome id, record id and feature index.  For a
    conversion that ends normally these are the rows stored. *)
Theorem qualifier_rows_name_a_feature_row rd gbk_path batch_size st :
  let run := convert_gbk_to_sqlite rd gbk_path batch_size st in
  let handed t := match outcome run with
                  | Ok _ => table_rows (database (final run)) t
                  | Err _ => contents (final run) t
                  end in
  ∃ features_new qualifiers_new,
    handed "feature" = table_rows (database st) "feature" ++ features_new ∧
    handed "qualifier" = table_rows (database st) "qualifier" ++ qualifiers_new ∧
    Forall (λ q, ∃ f, f ∈ features_new ∧ same_feature q f) qualifiers_new.
Proof.
  intros run handed.
  pose proof (convert_spec rd gbk_path batch_size st) as H.
  apply wp_run_of in H. fold run in H. destruct H as (_ & Ht & _).
  eexists _, _. split_and!.
  - subst handed. cbv beta. rewrite (Ht "feature").
    change (only "genome" _ "feature") with (@nil row). reflexivity.
  - subst handed. cbv beta. rewrite (Ht "qualifier").
    change (only "genome" _ "qualifier") with (@nil row). reflexivity.
  - apply loaded_qualifiers_have_features.
Qed.

Lemma feature_rows_ids genome record_obj idx fs :
  Forall (λ r, column "genome_id" r = Some (PyInt (genome_id genome)) ∧
               column "record_id" r = Some (PyInt (record_id record_obj)))
         (feature_rows genome record_obj idx fs).
Proof.
  revert idx. induction fs as [|f fs IH]; intros idx; constructor; [done|apply IH].
Qed.

Lemma qualifier_rows_ids genome record_obj idx fs :
  Forall (λ r, column "genome_id" r = Some (PyInt (genome_id genome)) ∧
               column "record_id" r = Some (PyInt (record_id record_obj)))
         (qualifier_rows genome record_obj idx fs).
Proof.
  revert idx. induction fs as [|f fs IH]; intros idx; [constructor|].
  cbn [qualifier_rows]. apply Forall_app_2; [|apply IH].
  apply Forall_fmap, Forall_forall. by intros q _.
Qed.

Lemma loaded_ids genome base rs t :
  t = "feature" ∨ t = "qualifier" →
  Forall (λ r, column "genome_id" r = Some (PyInt (genome_id genome)) ∧
               ∃ i r0, rs !! i = Some r0 ∧
                       column "record_id" r = Some (PyInt (base + Z.of_nat i)))
         (loaded genome base rs t).
Proof.
  intros Ht. revert base. induction rs as [|r rs IH]; intros base; [constructor|].
  assert (Hrest : Forall (λ r1, column "genome_id" r1 = Some (PyInt (genome_id genome)) ∧
                    ∃ i r0, (r :: rs) !! i = Some r0 ∧
                            column "record_id" r1 = Some (PyInt (base + Z.of_nat i)))
                  (loaded genome (base + 1) rs t)).
  { eapply Forall_impl; [apply IH|]. intros r1 (Hg & i & r0 & Hi & Hr).
    split; [done|]. exists (S i), r0. split; [done|]. rewrite Hr. do 2 f_equal. lia. }
  assert (Hhere : ∀ rows,
            Forall (λ r1, column "genome_id" r1 = Some (PyInt (genome_id genome)) ∧
                          column "record_id" r1
                          = Some (PyInt (record_id (record_obj_of base r)))) rows →
            Forall (λ r1, column "genome_id" r1 = Some (PyInt (genome_id genome)) ∧
                    ∃ i r0, (r :: rs) !! i = Some r0 ∧
                            column "record_id" r1 = Some (PyInt (base + Z.of_nat i))) rows).
  { intros rows Hrows. eapply Forall_impl; [exact Hrows|].
    intros r1 [Hg Hr]. split; [done|].
    exists 0%nat, r. split; [done|]. rewrite Hr. simpl. by rewrite Z.add_0_r. }
  destruct Ht as [-> | ->].
  - rewrite loaded_feature_cons. apply Forall_app_2; [|done].
    apply Hhere, feature_rows_ids.
  - rewrite loaded_qualifier_cons. apply Forall_app_2; [|done].
    apply Hhere, qualifier_rows_ids.
Qed.

(** X3.  Every feature row and every qualifier row a conversion has handed
    to the loader refers to parents that are stored when the conversion
    ends, however it ends: the record table has a row with the row's record
    id and genome id, and the genome table has a row with its genome id. *)
Theorem rows_refer_to_stored_parents rd gbk_path batch_size st :
  let run := convert_gbk_to_sqlite rd gbk_path batch_size st in
  let handed t := match outcome run with
                  | Ok _ => table_rows (database (final run)) t
                  | Err _ => contents (final run) t
                  end in
  ∃ features_new qualifiers_new,
    handed "feature" = table_rows (database st) "feature" ++ features_new ∧
    handed "qualifier" = table_rows (database st) "qualifier" ++ qualifiers_new ∧
    Forall (refers_to_parents (database (final run))) (features_new ++ qualifiers_new).
Proof.
  intros run handed.
  pose proof (convert_spec rd gbk_path batch_size st) as H.
  apply wp_run_of in H. fold run in H. destruct H as (_ & Ht & _).
  pose proof (one_record_row_per_record_aux rd gbk_path batch_size st) as Hrec.
  cbv zeta in Hrec. fold run in Hrec.
  assert (Hgen : genome_row (next_id (table_rows (database st) "genome")) gbk_path
                 ∈ table_rows (database (final run)) "genome").
  { specialize (Ht "genome"). rewrite loaded_elsewhere_genome, app_nil_r in Ht.
    change (only "genome" ?x "genome") with x in Ht.
    assert (Htab : table_rows (database (final run)) "genome" =
                   table_rows (database st) "genome"
                   ++ [genome_row (next_id (table_rows (database st) "genome")) gbk_path]).
    { destruct (outcome run); [exact Ht|]. by rewrite contents_genome in Ht. }
    rewrite Htab. apply elem_of_app. right. left. }
  assert (Hall : ∀ t, t = "feature" ∨ t = "qualifier" →
            Forall (refers_to_parents (database (final run)))
              (loaded (genome_of gbk_path st) (next_id (table_rows (database st) "record"))
                 (stream_records (iter_gb_records rd gbk_path)) t)).
  { intros t Htt. eapply Forall_impl; [by apply loaded_ids|].
    intros r (Hg & i & r0 & Hi & Hr). split.
    - exists (record_row (genome_of gbk_path st)
                (next_id (table_rows (database st) "record") + Z.of_nat i) r0).
      split_and!; [|by rewrite Hr|by rewrite Hr|by rewrite Hg].
      rewrite Hrec. apply elem_of_app. right.
      apply list_elem_of_lookup. exists i. by rewrite list_lookup_imap, Hi.
    - exists (genome_row (next_id (table_rows (database st) "genome")) gbk_path).
      split_and!; [exact Hgen|by rewrite Hg|by rewrite Hg]. }
  eexists _, _. split_and!.
  - subst handed. cbv beta. rewrite (Ht "feature").
    change (only "genome" _ "feature") with (@nil row). reflexivity.
  - subst handed. cbv beta. rewrite (Ht "qualifier").
    change (only "genome" _ "qualifier") with (@nil row). reflexivity.
  - apply Forall_app_2; apply Hall; auto.
Qed.

(** ** X4: the qualifier rows of a feature *)

Lemma filter_fmap_all {A B} (P : B → Prop) `{!∀ x, Decision (P x)} (f : A → B)
    (l : list A) :
  (∀ x, P (f x)) → filter P (f <$> l) = f <$> l.
Proof.
  intros HP. induction l as [|x l IH]; [done|].
  rewrite fmap_cons, filter_cons_True by done. by rewrite IH.
Qed.

Lemma filter_fmap_none {A B} (P : B → Prop) `{!∀ x, Decision (P x)} (f : A → B)
    (l : list A) :
  (∀ x, ¬ P (f x)) → filter P (f <$> l) = [].
Proof.
  intros HP. induction l as [|x l IH]; [done|].
  rewrite fmap_cons, filter_cons_False by done. exact IH.
Qed.

Lemma of_feature_qualifier_row genome record_obj idx q id k :
  of_feature id k (qualifier_row genome record_obj idx q) ↔
  record_id record_obj = id ∧ idx = k.
Proof.
  unfold of_feature, of_record, qualifier_row. simpl. split.
  - intros [H1 H2]. simplify_eq. split; [done|lia].
  - by intros [-> ->].
Qed.

Lemma filter_qualifier_rows_other genome record_obj id k idx fs :
  record_id record_obj ≠ id ∨ (k < idx)%nat →
  filter (of_feature id k) (qualifier_rows genome record_obj idx fs) = [].
Proof.
  revert idx. induction fs as [|f fs IH]; intros idx Hne; [done|].
  cbn [qualifier_rows]. rewrite filter_app, IH by (destruct Hne; [by left|right; lia]).
  rewrite filter_fmap_none; [done|].
  intros q [? ?]%of_feature_qualifier_row. destruct Hne; [done|lia].
Qed.

Lemma filter_qualifier_rows genome record_obj idx fs j f :
  fs !! j = Some f →
  filter (of_feature (record_id record_obj) (idx + j))
         (qualifier_rows genome record_obj idx fs) =
  qualifier_row genome record_obj (idx + j) <$> qualifiers f.
Proof.
  revert idx j. induction fs as [|f0 fs IH]; intros idx j Hj; [done|].
  cbn [qualifier_rows]. rewrite filter_app. destruct j as [|j].
  - simplify_eq/=. rewrite Nat.add_0_r.
    rewrite filter_fmap_all by (intros q; by apply of_feature_qualifier_row).
    rewrite filter_qualifier_rows_other by (right; lia). by rewrite app_nil_r.
  - cbn [lookup list_lookup] in Hj.
    rewrite filter_fmap_none
      by (intros q [? ?]%of_feature_qualifier_row; lia).
    replace (idx + S j)%nat with (S idx + j)%nat by lia. by apply IH.
Qed.

Lemma filter_loaded_qualifier_below genome base id k rs :
  (id < base)%Z → filter (of_feature id k) (loaded genome base rs "qualifier") = [].
Proof.
  revert base. induction rs as [|r rs IH]; intros base Hlt; [done|].
  rewrite loaded_qualifier_cons, filter_app, IH by lia.
  rewrite filter_qualifier_rows_other; [done|]. left. simpl. lia.
Qed.

Lemma filter_loaded_qualifier genome base rs i r j f :
  rs !! i = Some r → features r !! j = Some f →
  filter (of_feature (base + Z.of_nat i) j) (loaded genome base rs "qualifier") =
  qualifier_row genome (record_obj_of (base + Z.of_nat i) r) j <$> qualifiers f.
Proof.
  revert base i. induction rs as [|r0 rs IH]; intros base i Hi Hj; [done|].
  rewrite loaded_qualifier_cons, filter_app. destruct i as [|i].
  - simplify_eq/=. rewrite Z.add_0_r.
    pose proof (filter_qualifier_rows genome (record_obj_of base r) 0 _ j f Hj) as E.
    cbn [Nat.add record_id record_obj_of] in E. rewrite E.
    rewrite filter_loaded_qualifier_below by (simpl; lia). by rewrite app_nil_r.
  - cbn [lookup list_lookup] in Hi.
    replace (base + Z.of_nat (S i))%Z with (base + 1 + Z.of_nat i)%Z by lia.
    rewrite filter_qualifier_rows_other by (left; simpl; lia).
    by apply IH.
Qed.

(** X4.  Take the qualifier rows a conversion has handed to the loader
    (stored, or still buffered when the run was cut short).  For every record
    the parser yielded and every feature of it, the rows carrying the
    record's id and the feature's index are the feature's qualifiers, one row
    each, in the order the parser gave them, with their keys and values; a
    key that occurs twice gives two rows. *)
Theorem qualifier_rows_of_a_feature rd gbk_path batch_size st :
  let run := convert_gbk_to_sqlite rd gbk_path batch_size st in
  let rs := stream_records (iter_gb_records rd gbk_path) in
  ∃ new : list row,
    match outcome run with
    | Ok _ => table_rows (database (final run)) "qualifier"
    | Err _ => contents (final run) "qualifier"
    end = table_rows (database st) "qualifier" ++ new ∧
    ∀ i r record_obj j f,
      rs !! i = Some r →
      record_objs (locals (final run)) !! i = Some record_obj →
      features r !! j = Some f →
      (λ row, (column "key" row, column "value" row))
        <$> filter (of_feature (record_id record_obj) j) new =
      (λ q, (Some (q_key q), Some (q_value q))) <$> qualifiers f.
Proof.
  intros run rs.
  pose proof (convert_spec rd gbk_path batch_size st) as H.
  apply wp_run_of in H. fold run in H.
  destruct H as (_ & Ht & Hro & _). fold rs in Ht, Hro.
  eexists. split.
  - rewrite (Ht "qualifier"). change (only "genome" _ "qualifier") with (@nil row).
    reflexivity.
  - intros i r record_obj j f Hi Ho Hj. rewrite Hro in Ho.
    match type of Ht with context [loaded ?g ?b rs] =>
      destruct (filter_loaded g b rs i r Hi) as [Ho' _];
      pose proof (filter_loaded_qualifier g b rs i r j f Hi Hj) as Hf
    end.
    rewrite Ho' in Ho. injection Ho as <-. cbn [record_id record_obj_of app].
    rewrite Hf, <- list_fmap_compose. by apply list_fmap_ext.
Qed.

(** ** X12: what index creation leaves alone *)


(** ** X14: every batch is committed at once *)

Lemma committed_at_once_app tr1 tr2 :
  committed_at_once tr1 → committed_at_once tr2 → committed_at_once (tr1 ++ tr2).
Proof.
  intros H1 H2 i sql vs Hi.
  destruct (decide (i < length tr1)%nat) as [Hlt|Hge].
  - rewrite lookup_app_l in Hi by done. apply H1 in Hi.
    by apply (lookup_app_l_Some _ tr2) in Hi.
  - rewrite lookup_app_r in Hi by lia. apply H2 in Hi.
    rewrite lookup_app_r by lia. by replace (S i - length tr1)%nat
      with (S (i - length tr1)) by lia.
Qed.

Lemma committed_at_once_quiet tr :
  batches tr = [] → committed_at_once tr.
Proof.
  intros Hb i sql vs Hi. exfalso.
  apply list_elem_of_lookup_2 in Hi.
  assert ((sql, vs) ∈ batches tr) as Hin; [|rewrite Hb in Hin; by apply elem_of_nil in Hin].
  unfold batches. apply list_elem_of_omap. by eexists.
Qed.

Lemma committed_at_once_batch sql vs : committed_at_once [ExecuteMany sql vs; Commit].
Proof. intros [|[|i]] sql' vs' Hi; simplify_eq/=; done. Qed.

Lemma committed_at_once_for_records batch_size genome s :
  respects (λ _ _ tr, committed_at_once tr) (for_records batch_size genome s).
Proof.
  apply respects_for_records.
  - intros st. by apply committed_at_once_quiet.
  - intros st1 st2 st3 tr1 tr2. apply committed_at_once_app.
  - intros st. by apply committed_at_once_quiet.
  - intros st m. by apply committed_at_once_quiet.
  - intros st r objs. by apply committed_at_once_quiet.
  - intros genome' record_obj idx s' e v st. unfold wp.
    rewrite append_feature_run. cbv zeta.
    case_bool_decide; [apply committed_at_once_batch|by apply committed_at_once_quiet].
  - intros genome' record_obj idx q st. unfold wp.
    rewrite append_qualifier_run. cbv zeta.
    case_bool_decide; [apply committed_at_once_batch|by apply committed_at_once_quiet].
Qed.

(** X14.  In the trace of a conversion every [executemany] is directly
    followed by a commit: no batch is left uncommitted, whatever way the
    conversion ends. *)
Theorem every_batch_committed_at_once rd gbk_path batch_size st :
  committed_at_once (trace (convert_gbk_to_sqlite rd gbk_path batch_size st)).
Proof.
  rewrite convert_run. cbv zeta.
  set (loop := for_records batch_size (genome_of gbk_path st)
                 (iter_gb_records rd gbk_path) (loop_entry gbk_path st)).
  pose proof (committed_at_once_for_records batch_size (genome_of gbk_path st)
                (iter_gb_records rd gbk_path) (loop_entry gbk_path st)) as Hloop.
  apply wp_run_of in Hloop. fold loop in Hloop.
  destruct (outcome loop); unfold trace at 1; cbn [snd];
    change (?e1 :: ?e2 :: ?l) with ([e1; e2] ++ l);
    (apply committed_at_once_app; [by apply committed_at_once_quiet|]); [|done].
  apply committed_at_once_app; [done|].
  rewrite insert_remaining_run. unfold trace. cbn [snd].
  destruct (feature_tuples (locals (final loop))) as [|f fs],
           (qualifier_tuples (locals (final loop))) as [|q qs];
    cbn [flush_events app].
  - by apply committed_at_once_quiet.
  - apply committed_at_once_batch.
  - apply committed_at_once_batch.
  - apply (committed_at_once_app [_; _] [_; _]); apply committed_at_once_batch.
Qed.
